(** * order-server: ingestion, storage and merge of market snapshots

    A shallow embedding of [main.go].  The program consumes messages from a
    bus ([handleMessage]), stores each raw body snappy-compressed in the table
    [markets] keyed by (regionID, typeID), and answers three GET routes by
    splicing the [orders] arrays of the selected rows into one JSON array
    ([concatRowsToJSON]).

    Definitions:
    - byte strings and Go slice expressions;
    - the libraries [main.go] imports, as an interface ([Libs]);
    - the table, transactions and the handlers of [main.go];
    - models of the imported libraries (snappy, jsonparser, the int8 input of
      the database), the instance [golibs], and a recogniser of JSON texts,
      used to run the handlers on concrete messages;
    - the routes, what each row contributes to the merge, and runs of
      messages and of requests.

    Properties:
    - slices and joins; the merge as one equation ([concatRowsToJSON_chunks]);
    - the merge (C10, C4), the table (C5), the ingestion handler (C9), the
      query handlers (C2, C7, C6, C8), the codec (C3), the merged array as
      JSON (C1);
    - further properties of the ingestion handler over runs of messages, of
      the merge, of the query handlers over runs of requests, and of the
      routes. *)

From Stdlib Require Import String Ascii Strings.Byte.
From Stdlib Require Import List Permutation ZArith Lia Bool.
Import ListNotations.


(* ================================================================== *)
(** * Byte strings *)

Definition bytes := list byte.

(** [[]byte("...")] *)
Definition B (s : string) : bytes := list_byte_of_string s.

(** JSON text is written with ['] where the text has a double quote. *)
Definition J (s : string) : bytes :=
  map (fun b => if Byte.eqb b x27 then x22 else b) (B s).

Definition bytes_eqb (a b : bytes) : bool :=
  if list_eq_dec byte_eq_dec a b then true else false.

(** Go's [s[lo:hi]] for a slice whose capacity is its length.  The indices are
    Go [int]s; [None] is the run-time panic "slice bounds out of range". *)
Definition slice (s : bytes) (lo hi : Z) : option bytes :=
  if ((0 <=? lo) && (lo <=? hi) && (hi <=? Z.of_nat (length s)))%Z
  then Some (firstn (Z.to_nat (hi - lo)) (skipn (Z.to_nat lo) s))
  else None.

Definition len (s : bytes) : Z := Z.of_nat (length s).

(** [strings.Join]-like concatenation with a separator. *)
Fixpoint join (sep : bytes) (l : list bytes) : bytes :=
  match l with
  | [] => []
  | [x] => x
  | x :: rest => x ++ sep ++ join sep rest
  end.

(** The text of a JSON array whose elements have the texts [es]. *)
Definition array_lit (es : list bytes) : bytes := B "[" ++ join (B ",") es ++ B "]".

(* ================================================================== *)
(** * The imported libraries

    [main.go] calls [snappy.Encode], [snappy.Decode], [jsonparser.Get] and
    [jsonparser.GetInt]; its queries hand the path parameters to the database
    as text, which the database reads as [int8].  None of these is code of
    this repository: the handlers are written over this interface, and
    [golibs] below instantiates it with models of the libraries. *)

Class Libs := {
  (** [snappy.Encode(nil, src)] *)
  snappy_Encode : bytes -> bytes;
  (** [snappy.Decode(nil, src)]; [None] when it returns an error *)
  snappy_Decode : bytes -> option bytes;
  (** [jsonparser.Get(data, key)]: the value's bytes; [None] when it returns
      an error *)
  jsonparser_Get : bytes -> string -> option bytes;
  (** [jsonparser.GetInt(data, key)] *)
  jsonparser_GetInt : bytes -> string -> option Z;
  (** the database reading a text parameter compared with an [int8] column;
      [None] when the query is refused *)
  pq_int8 : string -> option Z
}.

(* ================================================================== *)
(** * The store *)

(** A row of [markets] (migrations/1485263603_initital_schema.up.sql). *)
Record row := { regionID : Z; typeID : Z; market : bytes }.

(** The table [markets] as the list of its rows.  The order of the list is
    one order in which a SELECT without ORDER BY may return them. *)
Definition table := list row.

(** The database as the program sees it: the committed table and the number
    of transactions begun by [db.Begin] and neither committed nor rolled
    back. *)
Record DB := { markets : table; open_tx : nat }.

(** The row [x] has the key (r, t). *)
Definition same_key (r t : Z) (x : row) : bool :=
  ((regionID x =? r) && (typeID x =? t))%Z.

(** [INSERT INTO markets ... ON CONFLICT ("regionID","typeID")
     DO UPDATE SET "market" = EXCLUDED."market"] *)
Fixpoint upsert (r t : Z) (m : bytes) (tb : table) : table :=
  match tb with
  | [] => [ {| regionID := r; typeID := t; market := m |} ]
  | x :: rest =>
      if same_key r t x
      then {| regionID := r; typeID := t; market := m |} :: rest
      else x :: upsert r t m rest
  end.

(** PRIMARY KEY ("regionID", "typeID") *)
Definition primary_key (tb : table) : Prop :=
  NoDup (map (fun x => (regionID x, typeID x)) tb).

(** The failures the database may answer with during one handler call. *)
Record faults := {
  begin_fails : bool;
  exec_fails : bool;
  query_fails : bool;
  commit_fails : bool
}.

(** The database answers every call. *)
Definition healthy : faults :=
  {| begin_fails := false; exec_fails := false;
     query_fails := false; commit_fails := false |}.

(** The errors the handlers pass on, by the call that returned them. *)
Inductive error : Type :=
| JSONError      (* jsonparser.Get, jsonparser.GetInt *)
| SnappyError    (* snappy.Decode *)
| SQLError.      (* db.Begin, tx.Exec, tx.Query, rows.Scan, tx.Commit *)

(** What a function that may return an error or panic ends with. *)
Inductive outcome (A : Type) : Type :=
| Ret (a : A)
| Fail (e : error)
| Panic.
Arguments Ret {A} a.
Arguments Fail {A} e.
Arguments Panic {A}.

(** [db.Begin()], for a call that the pool gives a connection to; the wait
    of a call that finds every connection taken is [Begin_pooled]. *)
Definition Begin (f : faults) (db : DB) : option DB :=
  if begin_fails f then None
  else Some {| markets := markets db; open_tx := S (open_tx db) |}.

(** [db.SetMaxOpenConns(20)] of [connectToDB] *)
Definition MaxOpenConns : nat := 20.

(** A transaction keeps its connection until it is committed or rolled
    back: with [MaxOpenConns] transactions open the pool has none left. *)
Definition pool_exhausted (db : DB) : bool := Nat.leb MaxOpenConns (open_tx db).

(** [db.Begin()] with the pool: the outer [None] when the call waits for a
    connection.  The handlers run in turn and give no connection back to a
    call that waits, so such a call does not return. *)
Definition Begin_pooled (f : faults) (db : DB) : option (option DB) :=
  if pool_exhausted db then None else Some (Begin f db).

(** [tx.Commit()]: the transaction is finished whether or not the commit
    succeeds; its writes [tb] reach the table only when it does. *)
Definition Commit (f : faults) (tb : table) (db : DB) : option error * DB :=
  if commit_fails f
  then (Some SQLError, {| markets := markets db; open_tx := pred (open_tx db) |})
  else (None, {| markets := tb; open_tx := pred (open_tx db) |}).

(** A result set: each row either scans into a [[]byte] or [rows.Scan]
    fails. *)
Definition Rows := list (option bytes).

(* ================================================================== *)
(** * main.go *)

Section Server.
Context {L : Libs}.

(** [handleMessage]: the error returned to the bus client ([None] is [nil],
    the message is acknowledged) and the database afterwards. *)
Definition handleMessage (f : faults) (body : bytes) (db : DB) : option error * DB :=
  match jsonparser_GetInt body "regionID" with
  | None => (Some JSONError, db)
  | Some region =>
  match jsonparser_GetInt body "typeID" with
  | None => (Some JSONError, db)
  | Some type =>
      let compressedRowset := snappy_Encode body in
      match Begin f db with
      | None => (Some SQLError, db)
      | Some db1 =>
          if exec_fails f then (Some SQLError, db1)
          else Commit f (upsert region type compressedRowset (markets db1)) db1
      end
  end end.

(** The loop of [concatRowsToJSON] over the remaining rows. *)
Fixpoint concat_loop (rows : Rows) (response : bytes) : outcome bytes :=
  match rows with
  | [] => Ret response
  | scanned :: rest =>
      match scanned with
      | None => Fail SQLError
      | Some market =>
      match snappy_Decode market with
      | None => Fail SnappyError
      | Some decompressedMarket =>
      match jsonparser_Get decompressedMarket "orders" with
      | None => Fail JSONError
      | Some orders =>
      match slice orders 1 (len orders - 1) with
      | None => Panic
      | Some elems => concat_loop rest ((response ++ elems) ++ B ",")
      end end end end
  end.

Definition concatRowsToJSON (rows : Rows) : outcome bytes :=
  match concat_loop rows (B "[") with
  | Ret response =>
      let response :=
        if (1 <? len response)%Z
        then match slice response 0 (len response - 1) with
             | Some r => r
             | None => response
             end
        else response in
      Ret (response ++ B "]")
  | Fail e => Fail e
  | Panic => Panic
  end.

(** What a request ends with: [context.Data], [context.AbortWithError], or a
    panic that unwinds the handler. *)
Inductive response : Type :=
| Data (status : Z) (contentType : string) (body : bytes)
| AbortWithError (status : Z) (e : error)
| Panicked.

(** The three SELECT statements; [None] when the database refuses the
    parameters.  The statements have no ORDER BY: the order of the list
    returned is one of the orders in which the database may return the rows,
    and [may_return] has them all. *)
Inductive query : Type :=
| ByRegion (region : string)
| ByType (type : string)
| ByRegionType (region type : string).

Definition select (q : query) (tb : table) : option Rows :=
  match q with
  | ByRegion p =>
      match pq_int8 p with
      | Some r => Some (map (fun x => Some (market x)) (filter (fun x => (regionID x =? r)%Z) tb))
      | None => None
      end
  | ByType p =>
      match pq_int8 p with
      | Some t => Some (map (fun x => Some (market x)) (filter (fun x => (typeID x =? t)%Z) tb))
      | None => None
      end
  | ByRegionType p1 p2 =>
      match pq_int8 p1, pq_int8 p2 with
      | Some r, Some t => Some (map (fun x => Some (market x)) (filter (same_key r t) tb))
      | _, _ => None
      end
  end.

(** The result sets that the database may return for [q]: the selected rows
    in any order. *)
Definition may_return (q : query) (tb : table) (rows : Rows) : Prop :=
  exists selected, select q tb = Some selected /\ Permutation selected rows.

(** [tx.Query(query, params...)] *)
Definition Query (f : faults) (q : query) (db : DB) : option Rows :=
  if query_fails f then None else select q (markets db).

(** The body shared by [getRegion], [getType] and [getRegionType], which
    differ in the statement they run. *)
Definition get (f : faults) (q : query) (db : DB) : response * DB :=
  match Begin f db with
  | None => (AbortWithError 500 SQLError, db)
  | Some db1 =>
      match Query f q db1 with
      | None => (AbortWithError 500 SQLError, db1)
      | Some rows =>
          match concatRowsToJSON rows with
          | Fail e => (AbortWithError 404 e, db1)
          | Panic => (Panicked, db1)
          | Ret response =>
              match Commit f (markets db1) db1 with
              | (Some e, db2) => (AbortWithError 500 e, db2)
              | (None, db2) => (Data 200 "application/json; charset=utf-8" response, db2)
              end
          end
      end
  end.

(** What a handler answers once [tx.Query] has returned [rows]: the lines of
    [get] after the query. *)
Definition answer_of (f : faults) (rows : Rows) : response :=
  match concatRowsToJSON rows with
  | Fail e => AbortWithError 404 e
  | Panic => Panicked
  | Ret response =>
      if commit_fails f then AbortWithError 500 SQLError
      else Data 200 "application/json; charset=utf-8" response
  end.

Definition getRegion (f : faults) (region : string) := get f (ByRegion region).
Definition getType (f : faults) (type : string) := get f (ByType type).
Definition getRegionType (f : faults) (region type : string) :=
  get f (ByRegionType region type).

End Server.

(* ================================================================== *)
(** * Models of the imported libraries *)

Local Open Scope Z_scope.

(** ** snappy *)

(** Modelled from the spec: the codec of section 4.1, which [main.go] takes
    from github.com/golang/snappy (not part of the sources).  The model is the
    snappy block format and the library's encoder for it.  [Decode] reads a
    varint holding the decoded length, then literal and copy elements.
    [Encode] cuts the input into blocks of at most 65536 bytes; a block of
    fewer than 17 bytes is emitted as one literal, a longer one goes through
    [encodeBlock], which looks for four-byte repetitions with a hash table of
    earlier positions and emits literals and copies.  Loops that advance a
    position take the length of the input as fuel.  The library refuses inputs
    of 4 GiB and more; a message body arrives framed with a 32-bit size, so
    the limit is out of reach of [handleMessage] and is left out. *)
Module snappy.

(** The value of a byte, 0 to 255. *)
Definition u8 (b : byte) : Z := Z.of_N (Byte.to_N b).

(** Go's conversion [uint8(z)]. *)
Definition uint8 (z : Z) : byte :=
  match Byte.of_N (Z.to_N (z mod 256)) with
  | Some b => b
  | None => x00
  end.

(** [binary.PutUvarint]; [fuel] bounds the number of continuation bytes. *)
Fixpoint putUvarint (fuel : nat) (x : Z) : bytes :=
  match fuel with
  | O => [uint8 x]
  | S k =>
      if x <? 128 then [uint8 x]
      else uint8 (x mod 128 + 128) :: putUvarint k (x / 128)
  end.

(** [binary.Uvarint]: the value read and the bytes after it.  The library
    stops after ten bytes, the length of a 64-bit value; the model reads a
    varint of any length, as its byte strings have no bound on theirs. *)
Fixpoint Uvarint (buf : bytes) (x s : Z) : option (Z * bytes) :=
  match buf with
  | [] => None
  | b :: rest =>
      if u8 b <? 128 then Some (x + u8 b * 2 ^ s, rest)
      else Uvarint rest (x + (u8 b mod 128) * 2 ^ s) (s + 7)
  end.

(** Little-endian value of a byte string. *)
Fixpoint le (bs : bytes) : Z :=
  match bs with
  | [] => 0
  | b :: rest => u8 b + 256 * le rest
  end.

(** The first [n] bytes and the rest; [None] when there are fewer. *)
Definition take (n : Z) (s : bytes) : option (bytes * bytes) :=
  if (0 <=? n) && (n <=? len s)
  then Some (firstn (Z.to_nat n) s, skipn (Z.to_nat n) s)
  else None.

(** The copy element: [length] bytes are appended one by one, each read
    [offset] bytes before the end, so that the ranges may overlap. *)
Fixpoint forwardCopy (dst : bytes) (offset : nat) (length : nat) : bytes :=
  match length with
  | O => dst
  | S k =>
      forwardCopy (dst ++ [nth (List.length dst - offset) dst x00]) offset k
  end.

Definition maxBlockSize : Z := 65536.

Definition tagLiteral : Z := 0.
Definition tagCopy1 : Z := 1.
Definition tagCopy2 : Z := 2.

Section Decode.
Variable dLen : Z.

(** The end of a copy element: the bounds are checked, the bytes copied, and
    [k] decodes what follows. *)
Definition copy_element (k : bytes -> bytes -> option bytes)
    (dst : bytes) (length offset : Z) (rest : bytes) : option bytes :=
  if (offset <=? 0) || (len dst <? offset) || (dLen - len dst <? length)
  then None
  else k (forwardCopy dst (Z.to_nat offset) (Z.to_nat length)) rest.

(** [decode]: [dst] is the part of the output written so far. *)
Fixpoint decode (fuel : nat) (dst src : bytes) : option bytes :=
  match src with
  | [] => if len dst =? dLen then Some dst else None
  | tag :: src1 =>
      match fuel with
      | O => None
      | S fuel' =>
          let t := u8 tag in
          if t mod 4 =? tagLiteral then
            let header :=
              if t / 4 <? 60 then Some (t / 4, src1)
              else match take (t / 4 - 59) src1 with
                   | Some (n, src2) => Some (le n, src2)
                   | None => None
                   end in
            match header with
            | None => None
            | Some (x, src2) =>
                let length := x + 1 in
                if (dLen - len dst <? length) || (len src2 <? length) then None
                else decode fuel' (dst ++ firstn (Z.to_nat length) src2)
                                  (skipn (Z.to_nat length) src2)
            end
          else if t mod 4 =? tagCopy1 then
            match take 1 src1 with
            | Some (o, src2) =>
                copy_element (decode fuel') dst
                  (4 + (t / 4) mod 8) (t / 32 * 256 + le o) src2
            | None => None
            end
          else if t mod 4 =? tagCopy2 then
            match take 2 src1 with
            | Some (o, src2) =>
                copy_element (decode fuel') dst (1 + t / 4) (le o) src2
            | None => None
            end
          else
            match take 4 src1 with
            | Some (o, src2) =>
                copy_element (decode fuel') dst (1 + t / 4) (le o) src2
            | None => None
            end
      end
  end.

End Decode.

(** Modelled from the spec: [decompress] of section 4.1, the library's
    [snappy.Decode(nil, src)]; [None] is [ErrCorrupt]. *)
Definition Decode (src : bytes) : option bytes :=
  match Uvarint src 0 0 with
  | None => None
  | Some (dLen, body) => decode dLen (List.length body) [] body
  end.

(** [emitLiteral], for a literal of 1 to 65536 bytes. *)
Definition emitLiteral (lit : bytes) : bytes :=
  let n := len lit - 1 in
  if n <? 60 then uint8 (n * 4 + tagLiteral) :: lit
  else if n <? 256 then uint8 (60 * 4 + tagLiteral) :: uint8 n :: lit
  else uint8 (61 * 4 + tagLiteral) :: uint8 n :: uint8 (n / 256) :: lit.

Definition inputMargin : nat := 15.
Definition minNonLiteralBlockSize : Z := 17.
Definition tableMask : Z := 16383.

(** [load32]: the four bytes at [i], little-endian. *)
Definition load32 (b : bytes) (i : nat) : Z := le (firstn 4 (skipn i b)).

(** [hash]: [(u * 0x1e35a7bd) >> shift] on [uint32]. *)
Definition hash (u shift : Z) : Z := ((u * 506832829) mod 2 ^ 32) / 2 ^ shift.

(** The table of positions, indexed by [hash & tableMask]. *)
Definition Table := Z -> nat.
Definition lookup (table : Table) (h : Z) : nat := table (h mod (tableMask + 1)).
Definition store (table : Table) (h : Z) (s : nat) : Table :=
  fun k => if k =? h mod (tableMask + 1) then s else table k.

(** The first loop of [emitCopy]: while 68 bytes or more are left, a copy of
    64 bytes; the elements and the length left. *)
Fixpoint emitCopy_long (fuel : nat) (offset length : Z) : bytes * Z :=
  match fuel with
  | O => ([], length)
  | S k =>
      if 68 <=? length then
        let '(out, length') := emitCopy_long k offset (length - 64) in
        (uint8 (63 * 4 + tagCopy2) :: uint8 offset :: uint8 (offset / 256) :: out, length')
      else ([], length)
  end.

(** [emitCopy]: the copies of 64 bytes, a copy of 60 bytes when more than 64
    are left, and the last copy, with a two-byte offset when it is 12 bytes
    or longer or reaches back 2048 bytes or more. *)
Definition emitCopy (offset length : Z) : bytes :=
  let '(long, length) := emitCopy_long (Z.to_nat length) offset length in
  let '(mid, length) :=
    if 64 <? length
    then ([uint8 (59 * 4 + tagCopy2); uint8 offset; uint8 (offset / 256)], length - 60)
    else ([], length) in
  long ++ mid ++
  (if (12 <=? length) || (2048 <=? offset)
   then [uint8 ((length - 1) * 4 + tagCopy2); uint8 offset; uint8 (offset / 256)]
   else [uint8 (offset / 256 * 32 + (length - 4) * 4 + tagCopy1); uint8 offset]).

(** The inner loop of [encodeBlock] that looks for a four-byte match: the
    position [s] of the match, the earlier position [candidate] it repeats,
    and the table; [None] is [goto emitRemainder].  The table holds [uint16]
    positions, which every position of a block fits. *)
Fixpoint search (fuel : nat) (src : bytes) (shift : Z) (sLimit : nat)
    (table : Table) (nextHash : Z) (nextS skip : nat)
  : option (nat * nat * Table) :=
  match fuel with
  | O => None
  | S k =>
      let s := nextS in
      let bytesBetweenHashLookups := (skip / 32)%nat in
      let nextS := (s + bytesBetweenHashLookups)%nat in
      let skip := (skip + bytesBetweenHashLookups)%nat in
      if (sLimit <? nextS)%nat then None
      else
        let candidate := lookup table nextHash in
        let table := store table nextHash s in
        let nextHash := hash (load32 src nextS) shift in
        if load32 src s =? load32 src candidate then Some (s, candidate, table)
        else search k src shift sLimit table nextHash nextS skip
  end.

(** The match at [i] and [s] extended as far as the bytes agree. *)
Fixpoint extendMatch (fuel : nat) (src : bytes) (i s : nat) : nat :=
  match fuel with
  | O => s
  | S k =>
      if (s <? List.length src)%nat && Byte.eqb (nth i src x00) (nth s src x00)
      then extendMatch k src (S i) (S s)
      else s
  end.

(** What follows the copies: the remainder, or the search resumed. *)
Inductive next : Type :=
| emitRemainder
| resume (s : nat) (nextHash : Z) (table : Table).

(** The loop of [encodeBlock] that emits the copy for the match at [s] and
    goes on while the four bytes after a copy match again: the elements, the
    position [nextEmit] reached, and what follows.  The library reads
    [x := load64(src, s-1)]; [uint32(x>>0)], [uint32(x>>8)] and
    [uint32(x>>16)] are [load32] at [s-1], [s] and [s+1]. *)
Fixpoint copies (fuel : nat) (src : bytes) (shift : Z) (sLimit : nat)
    (table : Table) (candidate s : nat) : bytes * nat * next :=
  match fuel with
  | O => ([], s, emitRemainder)
  | S k =>
      let base := s in
      let s := extendMatch (List.length src) src (candidate + 4) (s + 4) in
      let out := emitCopy (Z.of_nat (base - candidate)) (Z.of_nat (s - base)) in
      if (sLimit <=? s)%nat then (out, s, emitRemainder)
      else
        let prevHash := hash (load32 src (s - 1)) shift in
        let table := store table prevHash (s - 1) in
        let currHash := hash (load32 src s) shift in
        let candidate := lookup table currHash in
        let table := store table currHash s in
        if negb (load32 src s =? load32 src candidate)
        then (out, s, resume (S s) (hash (load32 src (S s)) shift) table)
        else
          let '(out', nextEmit, nx) := copies k src shift sLimit table candidate s in
          (out ++ out', nextEmit, nx)
  end.

(** [emitRemainder:] the bytes from [nextEmit] on, as a literal. *)
Definition remainder (src : bytes) (nextEmit : nat) : bytes :=
  if (nextEmit <? List.length src)%nat then emitLiteral (skipn nextEmit src) else [].

(** The outer loop of [encodeBlock]: search, the literal up to the match,
    the copies. *)
Fixpoint encodeBlock_loop (fuel : nat) (src : bytes) (shift : Z) (sLimit : nat)
    (table : Table) (nextHash : Z) (s nextEmit : nat) : bytes :=
  match fuel with
  | O => remainder src nextEmit
  | S k =>
      match search (List.length src) src shift sLimit table nextHash s 32 with
      | None => remainder src nextEmit
      | Some (s, candidate, table) =>
          let '(out, nextEmit', nx) :=
            copies (List.length src) src shift sLimit table candidate s in
          emitLiteral (firstn (s - nextEmit) (skipn nextEmit src)) ++ out ++
          match nx with
          | emitRemainder => remainder src nextEmit'
          | resume s nextHash table =>
              encodeBlock_loop k src shift sLimit table nextHash s nextEmit'
          end
      end
  end.

(** The shift that sizes the hash table for a block of [n] bytes. *)
Fixpoint table_shift (fuel : nat) (tableSize shift n : Z) : Z :=
  match fuel with
  | O => shift
  | S k =>
      if (tableSize <? tableMask + 1) && (tableSize <? n)
      then table_shift k (tableSize * 2) (shift - 1) n
      else shift
  end.

(** [encodeBlock], for a block of 17 to 65536 bytes. *)
Definition encodeBlock (src : bytes) : bytes :=
  let shift := table_shift 6 256 (32 - 8) (len src) in
  let sLimit := (List.length src - inputMargin)%nat in
  encodeBlock_loop (List.length src) src shift sLimit (fun _ => O)
    (hash (load32 src 1) shift) 1 0.

(** The loop of [Encode] over the blocks of [src]. *)
Fixpoint encode_blocks (fuel : nat) (src : bytes) : bytes :=
  match fuel with
  | O => []
  | S k =>
      match src with
      | [] => []
      | _ =>
          let p := firstn (Z.to_nat maxBlockSize) src in
          let src' := skipn (Z.to_nat maxBlockSize) src in
          (if len p <? minNonLiteralBlockSize then emitLiteral p else encodeBlock p)
          ++ encode_blocks k src'
      end
  end.

(** Modelled from the spec: [compress] of section 4.1, the library's
    [snappy.Encode(nil, src)]. *)
Definition Encode (src : bytes) : bytes :=
  putUvarint (List.length src) (len src) ++ encode_blocks (List.length src) src.

(** [decode] with the fuel it needs. *)
Definition dec (dLen : Z) (dst src : bytes) : option bytes :=
  decode dLen (List.length src) dst src.

(** Every position in the table is below [bound]. *)
Definition below (table : Table) (bound : nat) : Prop :=
  forall h, (table h < bound)%nat.

End snappy.

(** ** jsonparser *)

(** Modelled from the spec: "locate the top-level field" of section 4.4 and
    "required integer fields" of section 4.3, which [main.go] takes from
    github.com/buger/jsonparser (not part of the sources).  The model follows
    the library's scanner for a path of one key: it walks the bytes, skips
    strings and arrays, counts braces, and stops after the colon of the first
    key of the outermost object that equals the key sought; the value is then
    delimited by its first byte.  A key written with escape sequences is
    compared by the bytes it stands for. *)
Module jsonparser.

Definition quote : byte := x22.
Definition backslash : byte := x5c.

Definition is_space (c : byte) : bool :=
  Byte.eqb c " "%byte || Byte.eqb c x0a || Byte.eqb c x0d || Byte.eqb c x09.

(** [stringEnd]: the index after the closing quote of the string that
    [data] continues; a quote closes the string when an even number of
    backslashes precedes it. *)
Fixpoint stringEnd_from (data : bytes) (i : nat) (odd : bool) : option nat :=
  match data with
  | [] => None
  | c :: rest =>
      if Byte.eqb c quote then
        if odd then stringEnd_from rest (S i) false else Some (S i)
      else if Byte.eqb c backslash then stringEnd_from rest (S i) (negb odd)
      else stringEnd_from rest (S i) false
  end.

Definition stringEnd (data : bytes) : option nat := stringEnd_from data 0 false.

(** [blockEnd]: the index after the symbol that closes the block [data]
    starts with. *)
Fixpoint blockEnd_loop (fuel : nat) (data : bytes) (i : nat) (level : Z)
    (openSym closeSym : byte) : option nat :=
  match fuel with
  | O => None
  | S k =>
      match data with
      | [] => None
      | c :: rest =>
          if Byte.eqb c quote then
            match stringEnd rest with
            | None => None
            | Some se =>
                blockEnd_loop k (skipn se rest) (i + se + 1)%nat level openSym closeSym
            end
          else if Byte.eqb c openSym then
            blockEnd_loop k rest (S i) (level + 1) openSym closeSym
          else if Byte.eqb c closeSym then
            if level - 1 =? 0 then Some (S i)
            else blockEnd_loop k rest (S i) (level - 1) openSym closeSym
          else blockEnd_loop k rest (S i) level openSym closeSym
      end
  end.

Definition blockEnd (data : bytes) (openSym closeSym : byte) : option nat :=
  blockEnd_loop (List.length data) data 0 0 openSym closeSym.

Definition is_delimiter (c : byte) : bool :=
  is_space c || Byte.eqb c ","%byte || Byte.eqb c "}"%byte || Byte.eqb c "]"%byte.

(** [tokenEnd]: the index of the first delimiter, or the length. *)
Fixpoint tokenEnd (data : bytes) : nat :=
  match data with
  | [] => O
  | c :: rest => if is_delimiter c then O else S (tokenEnd rest)
  end.

(** [nextToken]: [data] from its first byte that is not white space. *)
Fixpoint nextToken (data : bytes) : option bytes :=
  match data with
  | [] => None
  | c :: rest => if is_space c then nextToken rest else Some data
  end.

(** The value of a hexadecimal digit. *)
Definition hexval (c : byte) : option Z :=
  let n := snappy.u8 c in
  if (48 <=? n) && (n <=? 57) then Some (n - 48)
  else if (97 <=? n) && (n <=? 102) then Some (n - 87)
  else if (65 <=? n) && (n <=? 70) then Some (n - 55)
  else None.

(** The code unit of four hexadecimal digits, and what follows them. *)
Definition hex4 (bs : bytes) : option (Z * bytes) :=
  match bs with
  | h1 :: h2 :: h3 :: h4 :: rest =>
      match hexval h1, hexval h2, hexval h3, hexval h4 with
      | Some a, Some b, Some c, Some d => Some (((a * 16 + b) * 16 + c) * 16 + d, rest)
      | _, _, _, _ => None
      end
  | _ => None
  end.

(** [utf8.EncodeRune] *)
Definition encodeRune (r : Z) : bytes :=
  if r <? 128 then [snappy.uint8 r]
  else if r <? 2048 then [snappy.uint8 (192 + r / 64); snappy.uint8 (128 + r mod 64)]
  else if r <? 65536 then
    [snappy.uint8 (224 + r / 4096); snappy.uint8 (128 + (r / 64) mod 64);
     snappy.uint8 (128 + r mod 64)]
  else
    [snappy.uint8 (240 + r / 262144); snappy.uint8 (128 + (r / 4096) mod 64);
     snappy.uint8 (128 + (r / 64) mod 64); snappy.uint8 (128 + r mod 64)].

(** [Unescape]: the bytes that a string written with escape sequences
    stands for; [None] at a malformed escape.  A surrogate is read together
    with the low surrogate that must follow it. *)
Fixpoint Unescape (fuel : nat) (bs : bytes) : option bytes :=
  match fuel with
  | O => Some bs
  | S k =>
      match bs with
      | [] => Some []
      | c :: rest =>
          if Byte.eqb c backslash then
            match rest with
            | [] => None
            | e :: rest' =>
                let simple (b : byte) := option_map (cons b) (Unescape k rest') in
                if Byte.eqb e quote then simple quote
                else if Byte.eqb e backslash then simple backslash
                else if Byte.eqb e "/"%byte then simple "/"%byte
                else if Byte.eqb e x27 then simple x27
                else if Byte.eqb e "b"%byte then simple x08
                else if Byte.eqb e "f"%byte then simple x0c
                else if Byte.eqb e "n"%byte then simple x0a
                else if Byte.eqb e "r"%byte then simple x0d
                else if Byte.eqb e "t"%byte then simple x09
                else if Byte.eqb e "u"%byte then
                  match hex4 rest' with
                  | None => None
                  | Some (r, after) =>
                      if (55296 <=? r) && (r <? 57344) then
                        match after with
                        | b1 :: b2 :: after' =>
                            if Byte.eqb b1 backslash && Byte.eqb b2 "u"%byte then
                              match hex4 after' with
                              | None => None
                              | Some (r2, after'') =>
                                  if r2 <? 56320 then None
                                  else option_map
                                         (app (encodeRune
                                                 ((r - 55296) * 1024 + (r2 - 56320) + 65536)))
                                         (Unescape k after'')
                              end
                            else None
                        | _ => None
                        end
                      else option_map (app (encodeRune r)) (Unescape k after)
                  end
                else None
            end
          else option_map (cons c) (Unescape k rest)
      end
  end.

(** [searchKeys] for the path [[key]]: the bytes after the colon of the
    key.  A key is compared after [Unescape]; a key with a malformed escape
    ends the search. *)
Fixpoint searchKeys_loop (fuel : nat) (data : bytes) (level keyLevel : Z)
    (key : bytes) : option bytes :=
  match fuel with
  | O => None
  | S k =>
      match data with
      | [] => None
      | c :: rest =>
          if Byte.eqb c quote then
            match stringEnd rest with
            | None => None
            | Some strEnd =>
                let after := skipn strEnd rest in
                match nextToken after with
                | None => None
                | Some [] => None
                | Some (t :: value) =>
                    if Byte.eqb t ":"%byte && (keyLevel =? level - 1) then
                      match Unescape strEnd (firstn (strEnd - 1) rest) with
                      | None => None
                      | Some keyUnesc =>
                          if (level =? 1) && bytes_eqb keyUnesc key
                          then Some value
                          else searchKeys_loop k value level keyLevel key
                      end
                    else searchKeys_loop k (t :: value) level keyLevel key
                end
            end
          else if Byte.eqb c "{"%byte then
            searchKeys_loop k rest (level + 1) keyLevel key
          else if Byte.eqb c "}"%byte then
            searchKeys_loop k rest (level - 1)
              (if level - 1 =? keyLevel then keyLevel - 1 else keyLevel) key
          else if Byte.eqb c "["%byte then
            match blockEnd data "["%byte "]"%byte with
            | None => None
            | Some arraySkip => searchKeys_loop k (skipn arraySkip data) level keyLevel key
            end
          else searchKeys_loop k rest level keyLevel key
      end
  end.

Definition searchKeys (data : bytes) (key : string) : option bytes :=
  searchKeys_loop (List.length data) data 0 0 (B key).

Inductive ValueType : Type :=
| String | Number | Object | Array | Boolean | Null.

(** [getType]: the value [data] starts with and its type. *)
Definition getType (data : bytes) : option (bytes * ValueType) :=
  match data with
  | [] => None
  | c :: rest =>
      if Byte.eqb c quote then
        match stringEnd rest with
        | Some idx => Some (firstn (S idx) data, String)
        | None => None
        end
      else if Byte.eqb c "["%byte then
        match blockEnd data "["%byte "]"%byte with
        | Some e => Some (firstn e data, Array)
        | None => None
        end
      else if Byte.eqb c "{"%byte then
        match blockEnd data "{"%byte "}"%byte with
        | Some e => Some (firstn e data, Object)
        | None => None
        end
      else
        let value := firstn (tokenEnd data) data in
        if Byte.eqb c "t"%byte || Byte.eqb c "f"%byte then
          if bytes_eqb value (B "true") || bytes_eqb value (B "false")
          then Some (value, Boolean) else None
        else if Byte.eqb c "u"%byte || Byte.eqb c "n"%byte then
          if bytes_eqb value (B "null") then Some (value, Null) else None
        else if Byte.eqb c "-"%byte
                || ((48 <=? snappy.u8 c) && (snappy.u8 c <=? 57))
        then Some (value, Number)
        else None
  end.

(** Modelled from the spec: "locate the top-level field", the library's
    [jsonparser.Get(data, key)]: value and type, [None] when it returns an
    error; a string value comes without its quotes. *)
Definition Get (data : bytes) (key : string) : option (bytes * ValueType) :=
  match searchKeys data key with
  | None => None
  | Some after =>
      match nextToken after with
      | None => None
      | Some tok =>
          match getType tok with
          | Some (value, String) =>
              Some (firstn (List.length value - 2) (skipn 1 value), String)
          | r => r
          end
      end
  end.

(** Decimal digits read from the left; [None] at a byte that is no digit. *)
Fixpoint digits (bs : bytes) (acc : Z) : option Z :=
  match bs with
  | [] => Some acc
  | c :: rest =>
      if (48 <=? snappy.u8 c) && (snappy.u8 c <=? 57)
      then digits rest (10 * acc + (snappy.u8 c - 48))
      else None
  end.

Definition maxInt64 : Z := 9223372036854775807.

(** [ParseInt]: an optional minus sign and at least one digit, within
    [int64]. *)
Definition ParseInt (bs : bytes) : option Z :=
  match bs with
  | [] => None
  | c :: rest =>
      let neg := Byte.eqb c "-"%byte in
      match (if neg then match rest with [] => None | _ => digits rest 0 end
             else digits bs 0) with
      | None => None
      | Some n =>
          if neg then (if n <=? maxInt64 + 1 then Some (- n) else None)
          else (if n <=? maxInt64 then Some n else None)
      end
  end.

(** Modelled from the spec: "extract ... as required integer fields", the
    library's [jsonparser.GetInt(data, key)]. *)
Definition GetInt (data : bytes) (key : string) : option Z :=
  match Get data key with
  | Some (v, Number) => ParseInt v
  | _ => None
  end.

End jsonparser.

(** ** The database reading an [int8] parameter *)

(** Modelled from the spec: "absence of validation here surfaces as a store
    error" of section 4.5.  The handlers pass the path parameters as text;
    the database (not part of the sources) reads them as [int8]: white space,
    an optional sign, at least one digit, white space, within 64 bits. *)
Module pq.

Fixpoint skip_space (bs : bytes) : bytes :=
  match bs with
  | c :: rest => if jsonparser.is_space c then skip_space rest else bs
  | [] => []
  end.

(** The leading digits of [bs], their value, and what follows them. *)
Fixpoint scan_digits (bs : bytes) (acc : Z) (n : nat) : Z * nat * bytes :=
  match bs with
  | c :: rest =>
      if (48 <=? snappy.u8 c) && (snappy.u8 c <=? 57)
      then scan_digits rest (10 * acc + (snappy.u8 c - 48)) (S n)
      else (acc, n, bs)
  | [] => (acc, n, [])
  end.

(** Modelled from the spec: the database reading a path parameter as
    [int8]; [None] is the error that makes the query fail. *)
Definition int8in (s : string) : option Z :=
  let bs := skip_space (B s) in
  let '(neg, bs) :=
    match bs with
    | c :: rest =>
        if Byte.eqb c "-"%byte then (true, rest)
        else if Byte.eqb c "+"%byte then (false, rest)
        else (false, bs)
    | [] => (false, bs)
    end in
  let '(v, n, rest) := scan_digits bs 0 O in
  let v := if neg then - v else v in
  match n, skip_space rest with
  | S _, [] =>
      if (- jsonparser.maxInt64 - 1 <=? v) && (v <=? jsonparser.maxInt64)
      then Some v else None
  | _, _ => None
  end.

End pq.

(** The libraries [main.go] runs with. *)
#[export] Instance golibs : Libs := {|
  snappy_Encode := snappy.Encode;
  snappy_Decode := snappy.Decode;
  jsonparser_Get := fun data key => option_map fst (jsonparser.Get data key);
  jsonparser_GetInt := jsonparser.GetInt;
  pq_int8 := pq.int8in
|}.

(** ** A recogniser of JSON texts (RFC 8259) *)

Module JSON.

Definition is_digit (c : byte) : bool := (48 <=? snappy.u8 c) && (snappy.u8 c <=? 57).

Definition is_hex (c : byte) : bool :=
  let n := snappy.u8 c in
  is_digit c || ((65 <=? n) && (n <=? 70)) || ((97 <=? n) && (n <=? 102)).

Fixpoint ws (s : bytes) : bytes :=
  match s with
  | c :: rest => if jsonparser.is_space c then ws rest else s
  | [] => []
  end.

(** What follows a string whose opening quote has been read. *)
Fixpoint chars (s : bytes) : option bytes :=
  match s with
  | [] => None
  | c :: rest =>
      if Byte.eqb c jsonparser.quote then Some rest
      else if Byte.eqb c jsonparser.backslash then
        match rest with
        | e :: rest' =>
            if Byte.eqb e "u"%byte then
              match rest' with
              | h1 :: h2 :: h3 :: h4 :: tail =>
                  if is_hex h1 && is_hex h2 && is_hex h3 && is_hex h4
                  then chars tail else None
              | _ => None
              end
            else if existsb (Byte.eqb e)
                      [x22; x5c; "/"%byte; "b"%byte; "f"%byte; "n"%byte; "r"%byte; "t"%byte]
            then chars rest' else None
        | [] => None
        end
      else if snappy.u8 c <? 32 then None
      else chars rest
  end.

Fixpoint digits (s : bytes) : bytes :=
  match s with
  | c :: rest => if is_digit c then digits rest else s
  | [] => []
  end.

Definition digits1 (s : bytes) : option bytes :=
  match s with
  | c :: rest => if is_digit c then Some (digits rest) else None
  | [] => None
  end.

(** What follows a number. *)
Definition number (s : bytes) : option bytes :=
  let s := match s with
           | c :: rest => if Byte.eqb c "-"%byte then rest else s
           | [] => s
           end in
  let int := match s with
             | c :: rest =>
                 if Byte.eqb c "0"%byte then Some rest else digits1 s
             | [] => None
             end in
  match int with
  | None => None
  | Some s =>
      let frac := match s with
                  | c :: rest => if Byte.eqb c "."%byte then digits1 rest else Some s
                  | [] => Some s
                  end in
      match frac with
      | None => None
      | Some s =>
          match s with
          | c :: rest =>
              if Byte.eqb c "e"%byte || Byte.eqb c "E"%byte then
                match rest with
                | g :: rest' =>
                    if Byte.eqb g "-"%byte || Byte.eqb g "+"%byte
                    then digits1 rest' else digits1 rest
                | [] => None
                end
              else Some s
          | [] => Some s
          end
      end
  end.

Definition literal (l : string) (s : bytes) : option bytes :=
  if bytes_eqb (firstn (List.length (B l)) s) (B l)
  then Some (skipn (List.length (B l)) s) else None.

(** What follows a value, the elements of an array after its bracket, the
    members of an object after its brace. *)
Fixpoint value (fuel : nat) (s : bytes) : option bytes :=
  match fuel with
  | O => None
  | S k =>
      match s with
      | [] => None
      | c :: rest =>
          if Byte.eqb c "["%byte then
            match ws rest with
            | d :: rest' =>
                if Byte.eqb d "]"%byte then Some rest' else elements k (d :: rest')
            | [] => None
            end
          else if Byte.eqb c "{"%byte then
            match ws rest with
            | d :: rest' =>
                if Byte.eqb d "}"%byte then Some rest' else members k (d :: rest')
            | [] => None
            end
          else if Byte.eqb c jsonparser.quote then chars rest
          else if Byte.eqb c "t"%byte then literal "true" s
          else if Byte.eqb c "f"%byte then literal "false" s
          else if Byte.eqb c "n"%byte then literal "null" s
          else number s
      end
  end
with elements (fuel : nat) (s : bytes) : option bytes :=
  match fuel with
  | O => None
  | S k =>
      match value k s with
      | None => None
      | Some r =>
          match ws r with
          | d :: rest =>
              if Byte.eqb d ","%byte then elements k (ws rest)
              else if Byte.eqb d "]"%byte then Some rest
              else None
          | [] => None
          end
      end
  end
with members (fuel : nat) (s : bytes) : option bytes :=
  match fuel with
  | O => None
  | S k =>
      match s with
      | q :: rest =>
          if Byte.eqb q jsonparser.quote then
            match chars rest with
            | None => None
            | Some r =>
                match ws r with
                | c :: r1 =>
                    if Byte.eqb c ":"%byte then
                      match value k (ws r1) with
                      | None => None
                      | Some r2 =>
                          match ws r2 with
                          | d :: r3 =>
                              if Byte.eqb d ","%byte then members k (ws r3)
                              else if Byte.eqb d "}"%byte then Some r3
                              else None
                          | [] => None
                          end
                      end
                    else None
                | [] => None
                end
            end
          else None
      | [] => None
      end
  end.

(** [s] is a JSON text. *)
Definition valid (s : bytes) : bool :=
  match value (2 * List.length s + 2) (ws s) with
  | Some r => match ws r with [] => true | _ => false end
  | None => false
  end.

(** [s] is a JSON text whose value is an array. *)
Definition valid_array (s : bytes) : bool :=
  match ws s with
  | c :: _ => Byte.eqb c "["%byte && valid s
  | [] => false
  end.

End JSON.

(* ================================================================== *)
(** * The routes of [startWebServer] *)

Section Routes.
Context {L : Libs}.

(** The segments of a path between its slashes. *)
Fixpoint segments (path : string) : list string :=
  match path with
  | EmptyString => [EmptyString]
  | String c rest =>
      if Ascii.eqb c "/" then EmptyString :: segments rest
      else match segments rest with
           | seg :: more => String c seg :: more
           | [] => [String c EmptyString]
           end
  end.

Definition under_v1 (a b c d : string) : bool :=
  String.eqb a "" && String.eqb b "api" && String.eqb c "orders" && String.eqb d "v1".

(** The handler that [router] runs for a GET of [path], with the path
    parameters bound.  A parameter is the segment up to the next slash, and
    may be empty. *)
Definition route (path : string) : option (faults -> DB -> response * DB) :=
  match segments path with
  | [a; b; c; d; e; p; z] =>
      if under_v1 a b c d && String.eqb e "region" && String.eqb z ""
      then Some (fun f => getRegion f p)
      else if under_v1 a b c d && String.eqb e "type" && String.eqb z ""
      then Some (fun f => getType f p)
      else None
  | [a; b; c; d; e; p; g; q; z] =>
      if under_v1 a b c d && String.eqb e "region"
         && String.eqb g "type" && String.eqb z ""
      then Some (fun f => getRegionType f p q)
      else None
  | _ => None
  end.

Definition GET (f : faults) (path : string) (db : DB) : option (response * DB) :=
  match route path with
  | Some handler => Some (handler f db)
  | None => None
  end.

End Routes.

(** The database before the first message. *)
Definition empty_db : DB := {| markets := []; open_tx := 0 |}.

(** The status a request was answered with. *)
Definition status_of (r : response) : option Z :=
  match r with
  | Data status _ _ => Some status
  | AbortWithError status _ => Some status
  | Panicked => None
  end.

(** The body a request was answered with. *)
Definition body_of (r : response) : bytes :=
  match r with
  | Data _ _ body => body
  | _ => []
  end.

(* ================================================================== *)
(** * What each row contributes to the merge *)

Section Merge.
Context {L : Libs}.

(** The [orders] value of a scanned row. *)
Definition orders_of (scanned : option bytes) : outcome bytes :=
  match scanned with
  | None => Fail SQLError
  | Some market =>
      match snappy_Decode market with
      | None => Fail SnappyError
      | Some decompressedMarket =>
          match jsonparser_Get decompressedMarket "orders" with
          | None => Fail JSONError
          | Some orders => Ret orders
          end
      end
  end.

(** The bytes a scanned row adds to the response: [orders[1:len(orders)-1]]. *)
Definition spliced (scanned : option bytes) : outcome bytes :=
  match orders_of scanned with
  | Ret orders =>
      match slice orders 1 (len orders - 1) with
      | Some elems => Ret elems
      | None => Panic
      end
  | Fail e => Fail e
  | Panic => Panic
  end.



(** [orders[1:len(orders)-1]] of a value of two bytes or more. *)
Definition inner (orders : bytes) : bytes :=
  firstn (Z.to_nat (len orders - 2)) (skipn 1 orders).

(** The row has no [orders] field that [jsonparser.Get] finds. *)
Definition lacks_orders (scanned : option bytes) : Prop :=
  exists market decompressedMarket,
    scanned = Some market /\
    snappy_Decode market = Some decompressedMarket /\
    jsonparser_Get decompressedMarket "orders" = None.

(** The chunks of all rows, or the first failure. *)
Fixpoint chunks_of (rows : Rows) : outcome (list bytes) :=
  match rows with
  | [] => Ret []
  | scanned :: rest =>
      match spliced scanned with
      | Ret c =>
          match chunks_of rest with
          | Ret cs => Ret (c :: cs)
          | Fail e => Fail e
          | Panic => Panic
          end
      | Fail e => Fail e
      | Panic => Panic
      end
  end.

End Merge.

(** Each chunk followed by a comma, as the loop appends them. *)
Definition comma_ended (chunks : list bytes) : bytes :=
  concat (map (fun c => c ++ B ",") chunks).

(* ================================================================== *)
(** * Messages and rows used as examples *)

(** Two messages for one pair, the second with a new price. *)
Definition price_then : bytes := J "{'regionID':10000002,'typeID':34,'orders':[{'price':5.5}]}".
Definition price_now : bytes := J "{'regionID':10000002,'typeID':34,'orders':[{'price':6.0}]}".

(** The rows of two messages about type 34, as the table holds them. *)
Definition two_rows : Rows :=
  [ Some (snappy.Encode (J "{'regionID':1,'typeID':34,'orders':[{'price':1},{'price':2}]}"));
    Some (snappy.Encode (J "{'regionID':2,'typeID':34,'orders':[{'price':3}]}")) ].

(** A row stored from a message without [orders], after a good one. *)
Definition rows_one_without_orders : Rows :=
  [ Some (snappy.Encode (J "{'regionID':1,'typeID':34,'orders':[{'price':1}]}"));
    Some (snappy.Encode (J "{'regionID':2,'typeID':34}")) ].

(* ================================================================== *)
(** * Slices and joins *)

(* ================================================================== *)
(** * Messages delivered one after another *)

Section Delivery.
Context {L : Libs}.

(** The handler run on each delivered message in turn; every message comes
    with the failures the database answers with during its call. *)
Fixpoint deliver (msgs : list (faults * bytes)) (db : DB) : DB :=
  match msgs with
  | [] => db
  | (f, body) :: rest => deliver rest (snd (handleMessage f body db))
  end.

(** The key of a message that [handleMessage] acknowledges: both fields are
    read and [db.Begin], [tx.Exec] and [tx.Commit] succeed. *)
Definition acknowledged (f : faults) (body : bytes) : option (Z * Z) :=
  match jsonparser_GetInt body "regionID", jsonparser_GetInt body "typeID" with
  | Some r, Some t =>
      if begin_fails f || exec_fails f || commit_fails f then None else Some (r, t)
  | _, _ => None
  end.


End Delivery.

(** No byte of [s] is a slash. *)
Fixpoint no_slash (s : string) : bool :=
  match s with
  | EmptyString => true
  | String c rest => negb (Ascii.eqb c "/") && no_slash rest
  end.

(** A database that refuses to commit. *)
Definition commit_refused : faults :=
  {| begin_fails := false; exec_fails := false;
     query_fails := false; commit_fails := true |}.

Section Requests.
Context {L : Libs}.

(** The query handlers run on requests in turn. *)
Fixpoint serve (reqs : list (faults * query)) (db : DB) : DB :=
  match reqs with
  | [] => db
  | (f, q) :: rest => serve rest (snd (get f q db))
  end.

(** The request begins a transaction and returns before [tx.Commit]: the
    statement is refused, or the merge returns no array. *)
Definition returns_early (tb : table) (req : faults * query) : bool :=
  let '(f, q) := req in
  negb (begin_fails f) &&
  match (if query_fails f then None else select q tb) with
  | None => true
  | Some rows =>
      match concatRowsToJSON rows with
      | Ret _ => false
      | _ => true
      end
  end.

(** A query handler with the pool: [None] when its [db.Begin] waits for a
    connection; the handler then does not return. *)
Definition get_pooled (f : faults) (q : query) (db : DB) : option (response * DB) :=
  match Begin_pooled f db with
  | None => None
  | Some _ => Some (get f q db)
  end.

(** [handleMessage] with the pool: the key fields are read before
    [db.Begin], so a message without them is answered whatever the pool
    holds. *)
Definition handleMessage_pooled (f : faults) (body : bytes) (db : DB)
  : option (option error * DB) :=
  match jsonparser_GetInt body "regionID", jsonparser_GetInt body "typeID" with
  | Some _, Some _ =>
      match Begin_pooled f db with
      | None => None
      | Some _ => Some (handleMessage f body db)
      end
  | _, _ => Some (handleMessage f body db)
  end.

(** The query handlers run on requests in turn, with the pool: [None] when
    one of them waits for a connection. *)
Fixpoint serve_pooled (reqs : list (faults * query)) (db : DB) : option DB :=
  match reqs with
  | [] => Some db
  | (f, q) :: rest =>
      match get_pooled f q db with
      | None => None
      | Some (_, db') => serve_pooled rest db'
      end
  end.

End Requests.


(* ================================================================== *)
(** * Tactics *)

(** The test [c] holds, or fails, by linear arithmetic. *)
Ltac holds c :=
  replace c with true
    by (symmetry;
        first [apply Z.ltb_lt | apply Z.leb_le | apply Z.eqb_eq | apply Nat.ltb_lt]; lia).
Ltac fails c :=
  replace c with false
    by (symmetry; first [apply Z.ltb_ge | apply Z.leb_gt]; lia).

Lemma len_app (a b : bytes) : len (a ++ b) = len a + len b.
Proof. unfold len. rewrite length_app. lia. Qed.

Lemma len_nonneg (a : bytes) : 0 <= len a.
Proof. unfold len. lia. Qed.

Lemma slice_some (s : bytes) (lo hi : Z) :
  0 <= lo <= hi -> hi <= len s ->
  slice s lo hi = Some (firstn (Z.to_nat (hi - lo)) (skipn (Z.to_nat lo) s)).
Proof.
  intros H1 H2. unfold slice. fold (len s).
  holds (0 <=? lo).
  holds (lo <=? hi).
  holds (hi <=? len s).
  reflexivity.
Qed.

Lemma slice_none_short (s : bytes) : len s < 2 -> slice s 1 (len s - 1) = None.
Proof.
  intros H. unfold slice.
  fails (1 <=? len s - 1).
  reflexivity.
Qed.

(** [(x :: body ++ [y])[1 : len-1]] is [body]. *)
Lemma slice_inner (x y : byte) (body : bytes) :
  slice (x :: body ++ [y]) 1 (len (x :: body ++ [y]) - 1) = Some body.
Proof.
  assert (Hl : len (x :: body ++ [y]) = len body + 2).
  { unfold len. cbn [List.length]. rewrite length_app. cbn. lia. }
  pose proof (len_nonneg body).
  rewrite slice_some by lia.
  rewrite Hl. replace (len body + 2 - 1 - 1) with (len body) by lia.
  change (Z.to_nat 1) with 1%nat. cbn [skipn].
  unfold len. rewrite Nat2Z.id. rewrite firstn_app, firstn_all, Nat.sub_diag.
  cbn. rewrite app_nil_r. reflexivity.
Qed.

(** [(s ++ [y])[:len-1]] is [s]. *)
Lemma slice_init (s : bytes) (y : byte) :
  slice (s ++ [y]) 0 (len (s ++ [y]) - 1) = Some s.
Proof.
  pose proof (len_nonneg s).
  assert (Hl : len (s ++ [y]) = len s + 1) by (rewrite len_app; reflexivity).
  rewrite slice_some by lia.
  rewrite Hl. replace (len s + 1 - 1 - 0) with (len s) by lia.
  cbn [Z.to_nat skipn]. unfold len. rewrite Nat2Z.id.
  rewrite firstn_app, firstn_all, Nat.sub_diag. cbn. rewrite app_nil_r.
  reflexivity.
Qed.

Lemma slice_array_lit (es : list bytes) :
  slice (array_lit es) 1 (len (array_lit es) - 1) = Some (join (B ",") es).
Proof. unfold array_lit. apply slice_inner. Qed.

Lemma comma_ended_join (c : bytes) (chunks : list bytes) :
  comma_ended (c :: chunks) = join (B ",") (c :: chunks) ++ B ",".
Proof.
  revert c. induction chunks as [|d chunks IH]; intros c.
  - cbn. rewrite app_nil_r. reflexivity.
  - change (comma_ended (c :: d :: chunks))
      with ((c ++ B ",") ++ comma_ended (d :: chunks)).
    rewrite IH. cbn [join]. rewrite <- !app_assoc. reflexivity.
Qed.

(** Joining the joined groups is joining all the elements, when no group is
    empty. *)
Lemma join_groups (sep : bytes) (ess : list (list bytes)) :
  Forall (fun es => es <> []) ess ->
  join sep (map (join sep) ess) = join sep (concat ess).
Proof.
  assert (Hcons : forall (x : bytes) l, l <> [] ->
            join sep (x :: l) = x ++ sep ++ join sep l).
  { intros x [|y l] H; [congruence | reflexivity]. }
  assert (Happ : forall (a b : list bytes), a <> [] -> b <> [] ->
            join sep (a ++ b) = join sep a ++ sep ++ join sep b).
  { induction a as [|x a IH]; intros b Ha Hb; [congruence|].
    destruct a as [|y a].
    - cbn [app]. rewrite Hcons by assumption. reflexivity.
    - change ((x :: y :: a) ++ b) with (x :: (y :: a) ++ b).
      rewrite Hcons by (cbn; congruence).
      rewrite IH by (assumption || congruence).
      cbn [join]. rewrite <- !app_assoc. reflexivity. }
  induction ess as [|es ess IH]; intros Hne; [reflexivity|].
  inversion Hne as [|? ? Hes Hess]; subst.
  destruct ess as [|es' ess].
  - cbn. rewrite app_nil_r. reflexivity.
  - change (map (join sep) (es :: es' :: ess))
      with (join sep es :: map (join sep) (es' :: ess)).
    rewrite Hcons by (cbn; congruence).
    rewrite IH by assumption.
    change (concat (es :: es' :: ess)) with (es ++ concat (es' :: ess)).
    rewrite Happ; [reflexivity | assumption |].
    inversion Hess; subst. cbn. destruct es'; [congruence | cbn; congruence].
Qed.

(* ================================================================== *)
(** * The merge, row by row *)

Section MergeFacts.
Context {L : Libs}.

Lemma concat_loop_chunks (rows : Rows) (response : bytes) :
  concat_loop rows response =
  match chunks_of rows with
  | Ret cs => Ret (response ++ comma_ended cs)
  | Fail e => Fail e
  | Panic => Panic
  end.
Proof.
  revert response. induction rows as [|scanned rest IH]; intros response.
  - cbn. rewrite app_nil_r. reflexivity.
  - cbn [concat_loop chunks_of]. unfold spliced, orders_of.
    destruct scanned as [market|]; [|reflexivity].
    destruct (snappy_Decode market) as [d|]; [|reflexivity].
    destruct (jsonparser_Get d "orders") as [orders|]; [|reflexivity].
    destruct (slice orders 1 (len orders - 1)) as [elems|]; [|reflexivity].
    rewrite IH. destruct (chunks_of rest) as [cs| |]; try reflexivity.
    change (comma_ended (elems :: cs)) with ((elems ++ B ",") ++ comma_ended cs).
    rewrite <- !app_assoc. reflexivity.
Qed.

(** [concatRowsToJSON] in one equation: the chunks joined by commas between
    brackets, or the first failure. *)
Lemma concatRowsToJSON_chunks (rows : Rows) :
  concatRowsToJSON rows =
  match chunks_of rows with
  | Ret cs => Ret (B "[" ++ join (B ",") cs ++ B "]")
  | Fail e => Fail e
  | Panic => Panic
  end.
Proof.
  unfold concatRowsToJSON. rewrite concat_loop_chunks.
  destruct (chunks_of rows) as [cs| |]; try reflexivity.
  destruct cs as [|c cs].
  - reflexivity.
  - rewrite comma_ended_join.
    assert (Hlen : (1 <? len (B "[" ++ join (B ",") (c :: cs) ++ B ","))%Z = true).
    { apply Z.ltb_lt. rewrite !len_app.
      pose proof (len_nonneg (join (B ",") (c :: cs))).
      change (len (B "[")) with 1. change (len (B ",")) with 1. lia. }
    rewrite Hlen.
    replace (B "[" ++ join (B ",") (c :: cs) ++ B ",")
      with ((B "[" ++ join (B ",") (c :: cs)) ++ [","%byte])
      by (rewrite <- app_assoc; reflexivity).
    rewrite slice_init. rewrite <- app_assoc. reflexivity.
Qed.

Lemma chunks_of_Ret (rows : Rows) (cs : list bytes) :
  chunks_of rows = Ret cs <-> Forall2 (fun r c => spliced r = Ret c) rows cs.
Proof.
  revert cs. induction rows as [|r rows IH]; intros cs; cbn [chunks_of].
  - split.
    + intros H. injection H as <-. constructor.
    + intros H. inversion H. reflexivity.
  - split.
    + destruct (spliced r) as [c| |] eqn:Hr; try discriminate.
      destruct (chunks_of rows) as [cs'| |] eqn:Hrows; try discriminate.
      intros H. injection H as <-. constructor; [assumption|].
      apply IH. reflexivity.
    + intros H. inversion H as [|? c ? cs' Hc Hcs]; subst.
      rewrite Hc. apply IH in Hcs. rewrite Hcs. reflexivity.
Qed.

End MergeFacts.

(* ================================================================== *)
(** * Properties of the merge *)

(** C10.  When [concatRowsToJSON] returns an array, the array is, between its
    brackets, the chunks of the rows in the order the rows were iterated,
    separated by commas: each row's chunk is [orders[1:len(orders)-1]], the
    bytes between the brackets of that row's [orders] value, unchanged and in
    one piece.  When the [orders] values are arrays of the elements [ess], the
    chunk of a row is its own elements in their order, so the output lists the
    elements row after row, never interleaved or reordered. *)
Theorem merge_keeps_rows_contiguous_in_order
    (L : Libs) (rows : Rows) (out : bytes) :
  concatRowsToJSON rows = Ret out ->
  exists chunks : list bytes,
    Forall2 (fun r c => spliced r = Ret c) rows chunks /\
    out = B "[" ++ join (B ",") chunks ++ B "]" /\
    forall ess : list (list bytes),
      Forall2 (fun r es => orders_of r = Ret (array_lit es)) rows ess ->
      chunks = map (join (B ",")) ess /\
      out = B "[" ++ join (B ",") (map (join (B ",")) ess) ++ B "]".
Proof.
  intros H. rewrite concatRowsToJSON_chunks in H.
  destruct (chunks_of rows) as [cs| |] eqn:Hcs; try discriminate.
  injection H as <-. exists cs.
  apply chunks_of_Ret in Hcs.
  split; [assumption|]. split; [reflexivity|].
  intros ess Hess.
  assert (Heq : cs = map (join (B ",")) ess).
  { clear -Hcs Hess. revert ess Hess.
    induction Hcs as [|r c rows cs Hr _ IH]; intros ess Hess.
    - inversion Hess. reflexivity.
    - inversion Hess as [|? es ? ess' Hes Hess']; subst.
      cbn [map]. f_equal; [|apply IH; assumption].
      unfold spliced in Hr. rewrite Hes, slice_array_lit in Hr.
      congruence. }
  split; [assumption|]. rewrite Heq. reflexivity.
Qed.

Lemma merge_keeps_rows_contiguous_in_order_witness :
  exists chunks : list bytes,
    Forall2 (fun r c => spliced r = Ret c) two_rows chunks /\
    J "[{'price':1},{'price':2},{'price':3}]" = B "[" ++ join (B ",") chunks ++ B "]" /\
    forall ess : list (list bytes),
      Forall2 (fun r es => orders_of r = Ret (array_lit es)) two_rows ess ->
      chunks = map (join (B ",")) ess /\
      J "[{'price':1},{'price':2},{'price':3}]"
      = B "[" ++ join (B ",") (map (join (B ",")) ess) ++ B "]".
Proof.
  apply (merge_keeps_rows_contiguous_in_order golibs two_rows).
  vm_compute. reflexivity.
Defined.

(** C4, as the code has it.  A row whose payload has no [orders] field that
    [jsonparser.Get] finds makes the whole merge return no array; the merge
    returns an error whenever no row makes the slice expression panic.  The
    type of the [orders] value is not looked at. *)
Theorem merge_fails_on_row_without_orders (L : Libs) (rows : Rows) :
  Exists lacks_orders rows ->
  (forall out, concatRowsToJSON rows <> Ret out) /\
  (Forall (fun r => spliced r <> Panic) rows ->
   exists e, concatRowsToJSON rows = Fail e).
Proof.
  intros Hex. rewrite concatRowsToJSON_chunks.
  assert (Hbad : forall r, lacks_orders r -> spliced r = Fail JSONError).
  { intros r (m & d & -> & Hd & Hg). unfold spliced, orders_of.
    rewrite Hd, Hg. reflexivity. }
  induction Hex as [r rows Hr | r rows Hex IH]; cbn [chunks_of].
  - rewrite (Hbad r Hr). split; [discriminate | eauto].
  - destruct IH as [IH1 IH2].
    destruct (spliced r) as [c| |] eqn:Hc.
    + destruct (chunks_of rows) as [cs| |] eqn:Hcs.
      * exfalso. apply (IH1 (B "[" ++ join (B ",") cs ++ B "]")). reflexivity.
      * split; [discriminate | eauto].
      * split; [discriminate|]. intros Hall. inversion Hall; subst.
        destruct (IH2 ltac:(assumption)) as [e He]. discriminate.
    + split; [discriminate | eauto].
    + split; [discriminate|]. intros Hall. inversion Hall; subst. congruence.
Qed.

Lemma merge_fails_on_row_without_orders_witness :
  (forall out, concatRowsToJSON rows_one_without_orders <> Ret out) /\
  (Forall (fun r => spliced r <> Panic) rows_one_without_orders ->
   exists e, concatRowsToJSON rows_one_without_orders = Fail e).
Proof.
  apply (merge_fails_on_row_without_orders golibs rows_one_without_orders).
  apply Exists_cons_tl, Exists_cons_hd.
  exists (snappy.Encode (J "{'regionID':2,'typeID':34}")),
         (J "{'regionID':2,'typeID':34}").
  repeat split; vm_compute; reflexivity.
Defined.

(** C4 as stated fails: an [orders] value that is a number, not an array, is
    spliced like one, and the merge returns [[2]]. *)
Lemma merge_accepts_orders_that_is_no_array :
  jsonparser.Get (J "{'regionID':1,'typeID':2,'orders':123}") "orders"
    = Some (B "123", jsonparser.Number) /\
  concatRowsToJSON
    [ Some (snappy.Encode (J "{'regionID':1,'typeID':2,'orders':123}")) ]
    = Ret (B "[2]").
Proof. split; vm_compute; reflexivity. Qed.

(* ================================================================== *)
(** * Properties of the table *)

Lemma same_key_true (r t : Z) (x : row) :
  same_key r t x = true <-> (regionID x, typeID x) = (r, t).
Proof.
  unfold same_key. rewrite andb_true_iff, !Z.eqb_eq.
  split; [intros [-> ->]; reflexivity | intros H; injection H; auto].
Qed.

Lemma filter_same_key_absent (r t : Z) (tb : table) :
  ~ In (r, t) (map (fun x => (regionID x, typeID x)) tb) ->
  filter (same_key r t) tb = [].
Proof.
  induction tb as [|x tb IH]; intros Hnot; [reflexivity|].
  cbn [filter]. destruct (same_key r t x) eqn:Hk.
  - exfalso. apply Hnot. left. apply same_key_true. assumption.
  - apply IH. intros Hin. apply Hnot. right. assumption.
Qed.

(** After the upsert the key has one row, the one written. *)
Lemma filter_upsert (r t : Z) (m : bytes) (tb : table) :
  primary_key tb ->
  filter (same_key r t) (upsert r t m tb)
  = [ {| regionID := r; typeID := t; market := m |} ].
Proof.
  assert (Hnew : same_key r t {| regionID := r; typeID := t; market := m |} = true).
  { apply same_key_true. reflexivity. }
  unfold primary_key. induction tb as [|x tb IH]; intros Hpk.
  - cbn. rewrite Hnew. reflexivity.
  - cbn [upsert]. inversion Hpk as [|? ? Hnotin Hpk']; subst.
    destruct (same_key r t x) eqn:Hk.
    + cbn [filter]. rewrite Hnew. f_equal.
      apply filter_same_key_absent.
      apply same_key_true in Hk. rewrite <- Hk. assumption.
    + cbn [filter]. rewrite Hk. apply IH. assumption.
Qed.

Lemma upsert_keys (r t : Z) (m : bytes) (tb : table) :
  forall k, In k (map (fun x => (regionID x, typeID x)) (upsert r t m tb)) ->
            k = (r, t) \/ In k (map (fun x => (regionID x, typeID x)) tb).
Proof.
  induction tb as [|x tb IH]; intros k Hin.
  - cbn in Hin. destruct Hin as [<-|[]]. left. reflexivity.
  - cbn [upsert] in Hin. destruct (same_key r t x) eqn:Hk.
    + cbn in Hin. destruct Hin as [<-|Hin]; [left; reflexivity|].
      right. right. assumption.
    + cbn in Hin. destruct Hin as [<-|Hin]; [right; left; reflexivity|].
      destruct (IH k Hin) as [->|H]; [left; reflexivity | right; right; assumption].
Qed.

(** The upsert keeps the primary key. *)
Lemma upsert_primary_key (r t : Z) (m : bytes) (tb : table) :
  primary_key tb -> primary_key (upsert r t m tb).
Proof.
  unfold primary_key. induction tb as [|x tb IH]; intros Hpk.
  - cbn. constructor; [intros [] | constructor].
  - cbn [upsert]. inversion Hpk as [|? ? Hnotin Hpk']; subst.
    destruct (same_key r t x) eqn:Hk.
    + apply same_key_true in Hk. cbn. rewrite <- Hk. assumption.
    + cbn. constructor; [|apply IH; assumption].
      intros Hin. apply upsert_keys in Hin. destruct Hin as [Heq|Hin].
      * apply same_key_true in Heq. congruence.
      * contradiction.
Qed.

(** What a message that [handleMessage] acknowledges does to the table. *)
Lemma handleMessage_acknowledged (L : Libs) (f : faults) (body : bytes) (db db' : DB) :
  handleMessage f body db = (None, db') ->
  exists r t,
    jsonparser_GetInt body "regionID" = Some r /\
    jsonparser_GetInt body "typeID" = Some t /\
    db' = {| markets := upsert r t (snappy_Encode body) (markets db);
             open_tx := open_tx db |}.
Proof.
  unfold handleMessage, Begin, Commit. intros H.
  destruct (jsonparser_GetInt body "regionID") as [r|]; [|discriminate].
  destruct (jsonparser_GetInt body "typeID") as [t|]; [|discriminate].
  destruct (begin_fails f); [discriminate|].
  destruct (exec_fails f); [discriminate|].
  destruct (commit_fails f); [discriminate|].
  cbn in H. injection H as <-. eauto.
Qed.

(** An upsert for a key that has a row adds no row. *)
Lemma upsert_length_present (r t : Z) (m : bytes) (tb : table) :
  filter (same_key r t) tb <> [] ->
  List.length (upsert r t m tb) = List.length tb.
Proof.
  induction tb as [|x tb IH]; intros H; [contradiction H; reflexivity|].
  cbn [upsert filter] in *. destruct (same_key r t x); [reflexivity|].
  cbn [List.length]. f_equal. apply IH. assumption.
Qed.

(** C5.  Two acknowledged messages for the key (r, t), with bodies [P1] then
    [P2]: after the first the key has one row, holding the compressed [P1];
    after the second the key has exactly one row, whose payload decompresses
    to [P2]; the second message replaces the row and adds none. *)
Theorem upsert_twice_keeps_last
    (L : Libs) (f1 f2 : faults) (P1 P2 : bytes) (r t : Z) (db db1 db2 : DB) :
  snappy_Decode (snappy_Encode P2) = Some P2 ->
  primary_key (markets db) ->
  jsonparser_GetInt P1 "regionID" = Some r ->
  jsonparser_GetInt P1 "typeID" = Some t ->
  jsonparser_GetInt P2 "regionID" = Some r ->
  jsonparser_GetInt P2 "typeID" = Some t ->
  handleMessage f1 P1 db = (None, db1) ->
  handleMessage f2 P2 db1 = (None, db2) ->
  filter (same_key r t) (markets db1)
    = [ {| regionID := r; typeID := t; market := snappy_Encode P1 |} ] /\
  (exists m,
     filter (same_key r t) (markets db2)
       = [ {| regionID := r; typeID := t; market := m |} ] /\
     snappy_Decode m = Some P2) /\
  List.length (markets db2) = List.length (markets db1).
Proof.
  intros Hcodec Hpk Hr1 Ht1 Hr2 Ht2 H1 H2.
  apply handleMessage_acknowledged in H1. destruct H1 as (r1 & t1 & Hr1' & Ht1' & ->).
  apply handleMessage_acknowledged in H2. destruct H2 as (r2 & t2 & Hr2' & Ht2' & ->).
  rewrite Hr1 in Hr1'. rewrite Ht1 in Ht1'.
  rewrite Hr2 in Hr2'. rewrite Ht2 in Ht2'.
  injection Hr1' as <-. injection Ht1' as <-.
  injection Hr2' as <-. injection Ht2' as <-.
  cbn [markets].
  assert (Hfirst : filter (same_key r t) (upsert r t (snappy_Encode P1) (markets db))
                   = [ {| regionID := r; typeID := t; market := snappy_Encode P1 |} ])
    by (apply filter_upsert; assumption).
  split; [assumption|]. split.
  - exists (snappy_Encode P2). split; [|assumption].
    apply filter_upsert. apply upsert_primary_key. assumption.
  - apply upsert_length_present. rewrite Hfirst. discriminate.
Qed.

Lemma upsert_twice_keeps_last_witness :
  filter (same_key 10000002 34) (markets (snd (handleMessage healthy price_then empty_db)))
    = [ {| regionID := 10000002; typeID := 34; market := snappy_Encode price_then |} ] /\
  (exists m,
     filter (same_key 10000002 34)
       (markets (snd (handleMessage healthy price_now
                        (snd (handleMessage healthy price_then empty_db)))))
       = [ {| regionID := 10000002; typeID := 34; market := m |} ] /\
     snappy_Decode m = Some price_now) /\
  List.length (markets (snd (handleMessage healthy price_now
                               (snd (handleMessage healthy price_then empty_db)))))
  = List.length (markets (snd (handleMessage healthy price_then empty_db))).
Proof.
  apply (upsert_twice_keeps_last golibs healthy healthy price_then price_now
           10000002 34 empty_db
           (snd (handleMessage healthy price_then empty_db))).
  - vm_compute. reflexivity.
  - constructor.
  - vm_compute. reflexivity.
  - vm_compute. reflexivity.
  - vm_compute. reflexivity.
  - vm_compute. reflexivity.
  - vm_compute. reflexivity.
  - vm_compute. reflexivity.
Defined.

(* ================================================================== *)
(** * Properties of the ingestion handler *)

(** C9.  A message in which [jsonparser.GetInt] finds no integer [regionID]
    or no integer [typeID] is answered with an error, and the database is
    left as it was: no transaction is begun and no row is written, whatever
    the database would have answered. *)
Theorem rejected_message_leaves_store_unchanged
    (L : Libs) (f : faults) (body : bytes) (db : DB) :
  jsonparser_GetInt body "regionID" = None \/
  jsonparser_GetInt body "typeID" = None ->
  exists e, handleMessage f body db = (Some e, db).
Proof.
  unfold handleMessage. intros [H|H].
  - rewrite H. eauto.
  - destruct (jsonparser_GetInt body "regionID"); rewrite ?H; eauto.
Qed.

Lemma rejected_message_leaves_store_unchanged_witness :
  exists e,
    handleMessage healthy (J "{'regionID':'Jita','typeID':34,'orders':[]}")
      (snd (handleMessage healthy price_then empty_db))
    = (Some e, snd (handleMessage healthy price_then empty_db)).
Proof.
  apply (rejected_message_leaves_store_unchanged golibs).
  left. vm_compute. reflexivity.
Defined.

(* ================================================================== *)
(** * Properties of the query handlers *)

Lemma eta_DB (db : DB) :
  {| markets := markets db; open_tx := pred (S (open_tx db)) |} = db.
Proof. destruct db. reflexivity. Qed.

(** C2 as stated fails: a pair that was never ingested is answered with
    status 200 and the empty array, not 404. *)
Lemma unknown_pair_is_answered_200 :
  GET healthy "/api/orders/v1/region/10000002/type/34/" empty_db
  = Some (Data 200 "application/json; charset=utf-8" (B "[]"), empty_db).
Proof. vm_compute. reflexivity. Qed.

(** C2, as the code has it.  When the table holds no row for the pair and the
    database answers, [getRegionType] responds with status 200 and the body
    [[]], and leaves the database as it was. *)
Theorem unknown_pair_yields_empty_array
    (L : Libs) (f : faults) (region type : string) (r t : Z) (db : DB) :
  pq_int8 region = Some r ->
  pq_int8 type = Some t ->
  (forall x, In x (markets db) -> same_key r t x = false) ->
  begin_fails f = false -> query_fails f = false -> commit_fails f = false ->
  getRegionType f region type db
  = (Data 200 "application/json; charset=utf-8" (B "[]"), db).
Proof.
  intros Hr Ht Hno Hb Hq Hc.
  unfold getRegionType, get, Begin, Query, Commit, select.
  rewrite Hb, Hq, Hc. cbn [markets open_tx]. rewrite Hr, Ht.
  assert (Hnil : filter (same_key r t) (markets db) = []).
  { induction (markets db) as [|x tb IH]; [reflexivity|].
    cbn [filter]. rewrite (Hno x (or_introl eq_refl)).
    apply IH. intros y Hy. apply Hno. right. assumption. }
  rewrite Hnil. cbn [map]. rewrite concatRowsToJSON_chunks. cbn [chunks_of].
  rewrite eta_DB. reflexivity.
Qed.

Lemma unknown_pair_yields_empty_array_witness :
  getRegionType healthy "10000003" "34" (snd (handleMessage healthy price_then empty_db))
  = (Data 200 "application/json; charset=utf-8" (B "[]"),
     snd (handleMessage healthy price_then empty_db)).
Proof.
  apply (unknown_pair_yields_empty_array golibs healthy "10000003" "34" 10000003 34).
  - vm_compute. reflexivity.
  - vm_compute. reflexivity.
  - intros x Hx. vm_compute in Hx. destruct Hx as [<-|[]]. vm_compute. reflexivity.
  - reflexivity.
  - reflexivity.
  - reflexivity.
Defined.

(** What a query handler does, case by case. *)
Lemma get_cases (L : Libs) (f : faults) (q : query) (db : DB) :
  get f q db =
  if begin_fails f then (AbortWithError 500 SQLError, db)
  else
    let db1 := {| markets := markets db; open_tx := S (open_tx db) |} in
    match Query f q db with
    | None => (AbortWithError 500 SQLError, db1)
    | Some rows =>
        match concatRowsToJSON rows with
        | Fail e => (AbortWithError 404 e, db1)
        | Panic => (Panicked, db1)
        | Ret response =>
            if commit_fails f then (AbortWithError 500 SQLError, db)
            else (Data 200 "application/json; charset=utf-8" response, db)
        end
    end.
Proof.
  unfold get, Begin, Query, Commit. destruct (begin_fails f); [reflexivity|].
  cbn [markets open_tx]. destruct (query_fails f); [reflexivity|].
  destruct (select q (markets db)) as [rows|]; [|reflexivity].
  destruct (concatRowsToJSON rows); try reflexivity.
  rewrite eta_DB. destruct (commit_fails f); reflexivity.
Qed.

(** The transaction of a query is finished exactly when the handler reaches
    [tx.Commit]: it stays open when the query is refused, when the merge
    returns an error and when the merge panics. *)
Lemma get_open_tx (L : Libs) (f : faults) (q : query) (db : DB) :
  open_tx (snd (get f q db)) =
  if begin_fails f then open_tx db
  else match Query f q db with
       | None => S (open_tx db)
       | Some rows =>
           match concatRowsToJSON rows with
           | Ret _ => open_tx db
           | _ => S (open_tx db)
           end
       end.
Proof.
  rewrite get_cases. destruct (begin_fails f); [reflexivity|]. cbn zeta.
  destruct (Query f q db) as [rows|]; [|reflexivity].
  destruct (concatRowsToJSON rows); try reflexivity.
  destruct (commit_fails f); reflexivity.
Qed.






(** C6, at a failing input.  The message [{"regionID":1,"typeID":2}] passes
    the checks of [handleMessage] and is stored; the request for its pair is
    then answered 404, and the transaction that [getRegionType] began is
    still open when the handler has returned. *)
Lemma getRegionType_leaves_transaction_open :
  handleMessage healthy (J "{'regionID':1,'typeID':2}") empty_db
  = (None, {| markets := [ {| regionID := 1; typeID := 2;
                              market := snappy.Encode (J "{'regionID':1,'typeID':2}") |} ];
              open_tx := 0 |}) /\
  GET healthy "/api/orders/v1/region/1/type/2/"
    {| markets := [ {| regionID := 1; typeID := 2;
                       market := snappy.Encode (J "{'regionID':1,'typeID':2}") |} ];
       open_tx := 0 |}
  = Some (AbortWithError 404 JSONError,
          {| markets := [ {| regionID := 1; typeID := 2;
                             market := snappy.Encode (J "{'regionID':1,'typeID':2}") |} ];
             open_tx := 1 |}).
Proof. split; vm_compute; reflexivity. Qed.

(** C8.  From the empty table, the message is acknowledged, and the request
    for its pair is then answered with status 200 and the body
    [[{"price":5.5}]]. *)
Theorem ingest_then_get_returns_the_orders :
  exists db1,
    handleMessage healthy
      (J "{'regionID':10000002,'typeID':34,'orders':[{'price':5.5}]}") empty_db
    = (None, db1) /\
    GET healthy "/api/orders/v1/region/10000002/type/34/" db1
    = Some (Data 200 "application/json; charset=utf-8" (J "[{'price':5.5}]"), db1).
Proof.
  eexists. split.
  - vm_compute. reflexivity.
  - vm_compute. reflexivity.
Qed.

(* ================================================================== *)
(** * The codec *)

Module snappy_facts.
Import snappy.

Lemma u8_range (b : byte) : 0 <= u8 b < 256.
Proof.
  unfold u8. pose proof (Byte.to_N_bounded b) as H.
  apply N2Z.inj_le in H. change (Z.of_N 255) with 255 in H.
  pose proof (N2Z.is_nonneg (Byte.to_N b)). lia.
Qed.

Lemma u8_uint8 (z : Z) : u8 (uint8 z) = z mod 256.
Proof.
  unfold u8, uint8.
  pose proof (Z.mod_pos_bound z 256 ltac:(lia)) as Hm.
  destruct (Byte.of_N (Z.to_N (z mod 256))) as [b|] eqn:Hb.
  - apply Byte.to_of_N in Hb. rewrite Hb. rewrite Z2N.id; lia.
  - apply Byte.of_N_None_iff in Hb. lia.
Qed.

Lemma u8_uint8_small (z : Z) : 0 <= z < 256 -> u8 (uint8 z) = z.
Proof. intros H. rewrite u8_uint8. apply Z.mod_small. assumption. Qed.

(** The varint written by [putUvarint] is read back. *)
Lemma Uvarint_putUvarint (fuel : nat) :
  forall (x acc s : Z) (rest : bytes),
    0 <= x <= Z.of_nat fuel -> 0 <= s ->
    Uvarint (putUvarint fuel x ++ rest) acc s = Some (acc + x * 2 ^ s, rest).
Proof.
  induction fuel as [|k IH]; intros x acc s rest Hx Hs.
  - assert (x = 0) by lia. subst x. cbn [putUvarint app Uvarint].
    rewrite u8_uint8_small by lia. reflexivity.
  - cbn [putUvarint]. destruct (x <? 128) eqn:Hlt.
    + apply Z.ltb_lt in Hlt. cbn [app Uvarint].
      rewrite u8_uint8_small by lia.
      holds (x <? 128).
      reflexivity.
    + apply Z.ltb_ge in Hlt. cbn [app Uvarint].
      pose proof (Z.mod_pos_bound x 128 ltac:(lia)) as Hm.
      rewrite u8_uint8_small by lia.
      fails (x mod 128 + 128 <? 128).
      assert (Hd : 0 <= x / 128 <= Z.of_nat k).
      { split; [apply Z.div_pos; lia|].
        assert (x / 128 < x) by (apply Z.div_lt; lia). lia. }
      rewrite IH by (assumption || lia).
      f_equal. f_equal.
      replace ((x mod 128 + 128) mod 128) with (x mod 128).
      2:{ replace (x mod 128 + 128) with (x mod 128 + 1 * 128) by lia.
          rewrite Z.mod_add by lia. symmetry. apply Z.mod_mod. lia. }
      rewrite Z.pow_add_r by lia. change (2 ^ 7) with 128.
      rewrite (Z.div_mod x 128) at 3 by lia. ring.
Qed.

Lemma firstn_len_app (a b : bytes) : firstn (Z.to_nat (len a)) (a ++ b) = a.
Proof.
  unfold len. rewrite Nat2Z.id, firstn_app, firstn_all, Nat.sub_diag.
  cbn. apply app_nil_r.
Qed.

Lemma skipn_len_app (a b : bytes) : skipn (Z.to_nat (len a)) (a ++ b) = b.
Proof.
  unfold len. rewrite Nat2Z.id, skipn_app, skipn_all, Nat.sub_diag. reflexivity.
Qed.

(** One step of [decode] over a literal as [emitLiteral] writes it. *)
Lemma decode_emitLiteral (dLen : Z) (fuel : nat) (dst lit rest : bytes) :
  1 <= len lit <= 65536 ->
  len dst + len lit <= dLen ->
  decode dLen (S fuel) dst (emitLiteral lit ++ rest)
  = decode dLen fuel (dst ++ lit) rest.
Proof.
  intros Hlit Hroom. unfold emitLiteral, tagLiteral.
  assert (Hbody : forall x src2,
            x = len lit - 1 -> src2 = lit ++ rest ->
            (if (dLen - len dst <? x + 1) || (len src2 <? x + 1) then None
             else decode dLen fuel (dst ++ firstn (Z.to_nat (x + 1)) src2)
                    (skipn (Z.to_nat (x + 1)) src2))
            = decode dLen fuel (dst ++ lit) rest).
  { intros x src2 -> ->. replace (len lit - 1 + 1) with (len lit) by lia.
    fails (dLen - len dst <? len lit).
    replace (len (lit ++ rest) <? len lit) with false.
    2:{ symmetry; apply Z.ltb_ge. rewrite len_app. pose proof (len_nonneg rest). lia. }
    cbn [orb]. rewrite firstn_len_app, skipn_len_app. reflexivity. }
  destruct (len lit - 1 <? 60) eqn:H60; [|destruct (len lit - 1 <? 256) eqn:H256].
  - apply Z.ltb_lt in H60. cbn [app decode].
    rewrite u8_uint8_small by lia.
    replace ((len lit - 1) * 4 + 0) with (0 + (len lit - 1) * 4) by lia.
    rewrite Z.mod_add, Z.div_add by lia. cbn [Z.modulo Z.div Z.add].
    change (0 mod 4 =? 0) with true. cbv iota. change (0 / 4) with 0.
    rewrite Z.add_0_l.
    holds (len lit - 1 <? 60).
    apply Hbody; reflexivity.
  - apply Z.ltb_ge in H60. apply Z.ltb_lt in H256.
    cbn [app decode]. rewrite u8_uint8_small by lia.
    change ((60 * 4 + 0) mod 4 =? 0) with true. cbv iota.
    change ((60 * 4 + 0) / 4 <? 60) with false. cbv iota.
    change ((60 * 4 + 0) / 4 - 59) with 1.
    unfold take. change (0 <=? 1) with true.
    replace (1 <=? len (uint8 (len lit - 1) :: lit ++ rest)) with true.
    2:{ symmetry. apply Z.leb_le. unfold len. cbn [List.length]. lia. }
    cbn [andb]. change (Z.to_nat 1) with 1%nat. cbn [firstn skipn le].
    rewrite u8_uint8_small by lia.
    apply Hbody; [lia | reflexivity].
  - apply Z.ltb_ge in H60. apply Z.ltb_ge in H256.
    cbn [app decode]. rewrite u8_uint8_small by lia.
    change ((61 * 4 + 0) mod 4 =? 0) with true. cbv iota.
    change ((61 * 4 + 0) / 4 <? 60) with false. cbv iota.
    change ((61 * 4 + 0) / 4 - 59) with 2.
    unfold take. change (0 <=? 2) with true.
    replace (2 <=? len (uint8 (len lit - 1) :: uint8 ((len lit - 1) / 256) :: lit ++ rest))
      with true.
    2:{ symmetry. apply Z.leb_le. unfold len. cbn [List.length]. lia. }
    cbn [andb]. change (Z.to_nat 2) with 2%nat. cbn [firstn skipn le].
    rewrite !u8_uint8.
    apply Hbody; [|reflexivity].
    assert (Hq : 0 <= (len lit - 1) / 256 < 256).
    { split; [apply Z.div_pos; lia | apply Z.div_lt_upper_bound; lia]. }
    rewrite (Z.mod_small ((len lit - 1) / 256)) by assumption.
    rewrite (Z.div_mod (len lit - 1) 256) at 3 by lia. lia.
Qed.

Lemma maxBlockSize_nat : Z.of_nat (Z.to_nat maxBlockSize) = 65536.
Proof. apply Z2Nat.id. unfold maxBlockSize. lia. Qed.

Lemma emitLiteral_length (lit : bytes) :
  (List.length lit < List.length (emitLiteral lit))%nat.
Proof.
  unfold emitLiteral.
  destruct (len lit - 1 <? 60); [|destruct (len lit - 1 <? 256)];
    cbn [List.length]; lia.
Qed.

Lemma take_spec (n : Z) (s a b : bytes) :
  take n s = Some (a, b) -> a ++ b = s /\ len a = n /\ (List.length b <= List.length s)%nat.
Proof.
  unfold take. destruct ((0 <=? n) && (n <=? len s)) eqn:H; [|discriminate].
  apply andb_true_iff in H. destruct H as [H1 H2].
  apply Z.leb_le in H1. apply Z.leb_le in H2.
  intros E. injection E as <- <-. split; [apply firstn_skipn|]. split.
  - unfold len in *. rewrite length_firstn. lia.
  - rewrite length_skipn. lia.
Qed.

Lemma decode_fuel (dLen : Z) (f1 : nat) :
  forall (f2 : nat) (dst src : bytes),
    (List.length src <= f1)%nat -> (List.length src <= f2)%nat ->
    decode dLen f1 dst src = decode dLen f2 dst src.
Proof.
  induction f1 as [|f1 IH]; intros f2 dst src H1 H2.
  - destruct src; [|cbn in H1; lia]. destruct f2; reflexivity.
  - destruct src as [|tag src1]; [destruct f2; reflexivity|].
    destruct f2 as [|f2]; [cbn in H2; lia|].
    cbn [List.length] in H1, H2.
    assert (Hcopy : forall length offset src2,
              (List.length src2 <= List.length src1)%nat ->
              copy_element dLen (decode dLen f1) dst length offset src2
              = copy_element dLen (decode dLen f2) dst length offset src2).
    { intros length offset src2 Hle. unfold copy_element.
      destruct ((offset <=? 0) || (len dst <? offset) || (dLen - len dst <? length));
        [reflexivity|]. apply IH; lia. }
    cbn [decode].
    destruct (u8 tag mod 4 =? tagLiteral).
    { assert (Hlit : forall x src2,
                (List.length src2 <= List.length src1)%nat ->
                (if (dLen - len dst <? x + 1) || (len src2 <? x + 1) then None
                 else decode dLen f1 (dst ++ firstn (Z.to_nat (x + 1)) src2)
                        (skipn (Z.to_nat (x + 1)) src2))
                = (if (dLen - len dst <? x + 1) || (len src2 <? x + 1) then None
                   else decode dLen f2 (dst ++ firstn (Z.to_nat (x + 1)) src2)
                          (skipn (Z.to_nat (x + 1)) src2))).
      { intros x src2 Hle.
        destruct ((dLen - len dst <? x + 1) || (len src2 <? x + 1)); [reflexivity|].
        apply IH; rewrite length_skipn; lia. }
      destruct (u8 tag / 4 <? 60); [apply Hlit; lia|].
      destruct (take (u8 tag / 4 - 59) src1) as [[n src2]|] eqn:Ht; [|reflexivity].
      apply take_spec in Ht. apply Hlit. lia. }
    destruct (u8 tag mod 4 =? tagCopy1).
    { destruct (take 1 src1) as [[o src2]|] eqn:Ht; [|reflexivity].
      apply take_spec in Ht. apply Hcopy; lia. }
    destruct (u8 tag mod 4 =? tagCopy2).
    { destruct (take 2 src1) as [[o src2]|] eqn:Ht; [|reflexivity].
      apply take_spec in Ht. apply Hcopy; lia. }
    destruct (take 4 src1) as [[o src2]|] eqn:Ht; [|reflexivity].
    apply take_spec in Ht. apply Hcopy; lia.
Qed.

Lemma dec_step (dLen : Z) (dst dst' e rest : bytes) :
  (0 < List.length e)%nat ->
  (forall fuel, decode dLen (S fuel) dst (e ++ rest) = decode dLen fuel dst' rest) ->
  dec dLen dst (e ++ rest) = dec dLen dst' rest.
Proof.
  intros He H. unfold dec. rewrite length_app.
  replace (List.length e + List.length rest)%nat
    with (S (List.length e - 1 + List.length rest)) by lia.
  rewrite H. apply decode_fuel; lia.
Qed.

Lemma dec_nil (dLen : Z) (dst : bytes) :
  len dst = dLen -> dec dLen dst [] = Some dst.
Proof. intros H. unfold dec. cbn. rewrite H, Z.eqb_refl. reflexivity. Qed.

Lemma dec_emitLiteral (dLen : Z) (dst lit rest : bytes) :
  1 <= len lit <= 65536 ->
  len dst + len lit <= dLen ->
  dec dLen dst (emitLiteral lit ++ rest) = dec dLen (dst ++ lit) rest.
Proof.
  intros H1 H2. apply dec_step.
  - pose proof (emitLiteral_length lit). lia.
  - intros fuel. apply decode_emitLiteral; assumption.
Qed.

Lemma forwardCopy_length (n : nat) :
  forall (dst : bytes) (offset : nat),
    List.length (forwardCopy dst offset n) = (List.length dst + n)%nat.
Proof.
  induction n as [|n IH]; intros dst offset; cbn [forwardCopy]; [lia|].
  rewrite IH, length_app. cbn. lia.
Qed.

Lemma forwardCopy_add (a : nat) :
  forall (b : nat) (dst : bytes) (offset : nat),
    forwardCopy dst offset (a + b) = forwardCopy (forwardCopy dst offset a) offset b.
Proof.
  induction a as [|a IH]; intros b dst offset; [reflexivity|].
  cbn [forwardCopy Nat.add]. apply IH.
Qed.

(** One step of [decode] over a copy element with a two-byte offset. *)
Lemma decode_copy2 (dLen : Z) (fuel : nat) (dst rest : bytes) (offset length : Z) :
  1 <= length <= 64 ->
  1 <= offset <= len dst -> offset < 65536 ->
  len dst + length <= dLen ->
  decode dLen (S fuel) dst
    (uint8 ((length - 1) * 4 + tagCopy2) :: uint8 offset :: uint8 (offset / 256) :: rest)
  = decode dLen fuel (forwardCopy dst (Z.to_nat offset) (Z.to_nat length)) rest.
Proof.
  intros Hl Ho Ho' Hroom. unfold tagCopy2. cbn [decode].
  rewrite u8_uint8_small by lia.
  assert (Hm : ((length - 1) * 4 + 2) mod 4 = 2) by (Z.div_mod_to_equations; lia).
  assert (Hd : ((length - 1) * 4 + 2) / 4 = length - 1) by (Z.div_mod_to_equations; lia).
  rewrite Hm, Hd. unfold tagLiteral, tagCopy1, tagCopy2.
  change (2 =? 0) with false. change (2 =? 1) with false. change (2 =? 2) with true.
  cbv iota. unfold take. change (0 <=? 2) with true.
  replace (2 <=? len (uint8 offset :: uint8 (offset / 256) :: rest)) with true.
  2:{ symmetry. apply Z.leb_le. unfold len. cbn [List.length]. lia. }
  cbn [andb]. change (Z.to_nat 2) with 2%nat. cbn [firstn skipn le].
  rewrite !u8_uint8. unfold copy_element.
  assert (Hoff : offset mod 256 + 256 * ((offset / 256) mod 256 + 256 * 0) = offset)
    by (Z.div_mod_to_equations; lia).
  rewrite Hoff. replace (1 + (length - 1)) with length by lia.
  fails (offset <=? 0).
  fails (len dst <? offset).
  fails (dLen - len dst <? length).
  reflexivity.
Qed.

(** One step of [decode] over a copy element with an eleven-bit offset. *)
Lemma decode_copy1 (dLen : Z) (fuel : nat) (dst rest : bytes) (offset length : Z) :
  4 <= length < 12 ->
  1 <= offset <= len dst -> offset < 2048 ->
  len dst + length <= dLen ->
  decode dLen (S fuel) dst
    (uint8 (offset / 256 * 32 + (length - 4) * 4 + tagCopy1) :: uint8 offset :: rest)
  = decode dLen fuel (forwardCopy dst (Z.to_nat offset) (Z.to_nat length)) rest.
Proof.
  intros Hl Ho Ho' Hroom. unfold tagCopy1. cbn [decode].
  set (t := offset / 256 * 32 + (length - 4) * 4 + 1).
  assert (Ht : 0 <= t < 256) by (subst t; Z.div_mod_to_equations; lia).
  rewrite u8_uint8_small by assumption.
  assert (Hm : t mod 4 = 1) by (subst t; Z.div_mod_to_equations; lia).
  assert (Hl8 : (t / 4) mod 8 = length - 4) by (subst t; Z.div_mod_to_equations; lia).
  assert (Hhi : t / 32 = offset / 256) by (subst t; Z.div_mod_to_equations; lia).
  rewrite Hm, Hl8, Hhi. unfold tagLiteral, tagCopy1.
  change (1 =? 0) with false. change (1 =? 1) with true.
  cbv iota. unfold take. change (0 <=? 1) with true.
  replace (1 <=? len (uint8 offset :: rest)) with true.
  2:{ symmetry. apply Z.leb_le. unfold len. cbn [List.length]. lia. }
  cbn [andb]. change (Z.to_nat 1) with 1%nat. cbn [firstn skipn le].
  rewrite !u8_uint8. unfold copy_element.
  assert (Hoff : offset / 256 * 256 + (offset mod 256 + 256 * 0) = offset)
    by (Z.div_mod_to_equations; lia).
  rewrite Hoff. replace (4 + (length - 4)) with length by lia.
  fails (offset <=? 0).
  fails (len dst <? offset).
  fails (dLen - len dst <? length).
  reflexivity.
Qed.

Lemma dec_copy2 (dLen : Z) (dst rest : bytes) (offset length : Z) :
  1 <= length <= 64 ->
  1 <= offset <= len dst -> offset < 65536 ->
  len dst + length <= dLen ->
  dec dLen dst
    ([uint8 ((length - 1) * 4 + tagCopy2); uint8 offset; uint8 (offset / 256)] ++ rest)
  = dec dLen (forwardCopy dst (Z.to_nat offset) (Z.to_nat length)) rest.
Proof.
  intros. apply dec_step; [cbn; lia|].
  intros fuel. apply decode_copy2; assumption.
Qed.

Lemma dec_copy1 (dLen : Z) (dst rest : bytes) (offset length : Z) :
  4 <= length < 12 ->
  1 <= offset <= len dst -> offset < 2048 ->
  len dst + length <= dLen ->
  dec dLen dst
    ([uint8 (offset / 256 * 32 + (length - 4) * 4 + tagCopy1); uint8 offset] ++ rest)
  = dec dLen (forwardCopy dst (Z.to_nat offset) (Z.to_nat length)) rest.
Proof.
  intros. apply dec_step; [cbn; lia|].
  intros fuel. apply decode_copy1; assumption.
Qed.

Lemma forwardCopy_len (dst : bytes) (offset n : nat) :
  len (forwardCopy dst offset n) = len dst + Z.of_nat n.
Proof. unfold len. rewrite forwardCopy_length. lia. Qed.

Lemma forwardCopy_Zadd (dst : bytes) (offset : nat) (a b : Z) :
  0 <= a -> 0 <= b ->
  forwardCopy (forwardCopy dst offset (Z.to_nat a)) offset (Z.to_nat b)
  = forwardCopy dst offset (Z.to_nat (a + b)).
Proof. intros Ha Hb. rewrite Z2Nat.inj_add by assumption. symmetry. apply forwardCopy_add. Qed.

(** The copies of 64 bytes that [emitCopy] starts with. *)
Lemma dec_emitCopy_long (dLen offset : Z) (fuel : nat) :
  forall (length : Z) (dst rest out : bytes) (length' : Z),
    emitCopy_long fuel offset length = (out, length') ->
    1 <= offset <= len dst -> offset < 65536 ->
    0 <= length -> len dst + length <= dLen ->
    dec dLen dst (out ++ rest)
    = dec dLen (forwardCopy dst (Z.to_nat offset) (Z.to_nat (length - length'))) rest /\
    length' <= length /\
    (4 <= length -> 4 <= length') /\
    (length <= 67 + 64 * Z.of_nat fuel -> length' <= 67).
Proof.
  induction fuel as [|k IH]; intros length dst rest out length' E Ho Ho' Hl Hroom.
  - cbn in E. injection E as <- <-. rewrite Z.sub_diag. cbn. repeat split; lia.
  - cbn [emitCopy_long] in E. destruct (68 <=? length) eqn:H68.
    + apply Z.leb_le in H68.
      destruct (emitCopy_long k offset (length - 64)) as [out1 length1] eqn:E1.
      injection E as <- <-.
      pose proof (forwardCopy_len dst (Z.to_nat offset) (Z.to_nat 64)) as Hlen.
      rewrite Z2Nat.id in Hlen by lia.
      destruct (IH (length - 64) (forwardCopy dst (Z.to_nat offset) (Z.to_nat 64))
                  rest out1 length1 E1) as (Hdec & Hle & H4 & H67); try lia.
      split; [|repeat split; lia].
      match goal with
      | |- _ = ?r =>
          change (dec dLen dst
                    ([uint8 ((64 - 1) * 4 + tagCopy2); uint8 offset; uint8 (offset / 256)]
                     ++ (out1 ++ rest)) = r)
      end.
      rewrite dec_copy2 by lia. rewrite Hdec.
      rewrite forwardCopy_Zadd by lia. f_equal. f_equal. f_equal. lia.
    + apply Z.leb_gt in H68. injection E as <- <-.
      rewrite Z.sub_diag. cbn. repeat split; lia.
Qed.

(** [decode] over the elements of one [emitCopy]. *)
Lemma dec_emitCopy (dLen : Z) (dst rest : bytes) (offset length : Z) :
  4 <= length ->
  1 <= offset <= len dst -> offset < 65536 ->
  len dst + length <= dLen ->
  dec dLen dst (emitCopy offset length ++ rest)
  = dec dLen (forwardCopy dst (Z.to_nat offset) (Z.to_nat length)) rest.
Proof.
  intros Hl Ho Ho' Hroom. unfold emitCopy.
  destruct (emitCopy_long (Z.to_nat length) offset length) as [long l1] eqn:E.
  assert (Hlong := fun rest' =>
            dec_emitCopy_long dLen offset (Z.to_nat length) length dst rest' long l1 E
              Ho Ho' ltac:(lia) Hroom).
  destruct (Hlong []) as (_ & Hle & H4 & H67).
  specialize (H4 Hl). specialize (H67 ltac:(lia)).
  assert (Hdec := fun rest' => proj1 (Hlong rest')). clear Hlong.
  set (dst1 := forwardCopy dst (Z.to_nat offset) (Z.to_nat (length - l1))) in *.
  assert (Hlen1 : len dst1 = len dst + (length - l1)).
  { subst dst1. rewrite forwardCopy_len, Z2Nat.id by lia. reflexivity. }
  assert (Hlast : forall d l2,
            4 <= l2 <= 64 -> l2 <= length -> len d = len dst + (length - l2) ->
            dec dLen d
              ((if (12 <=? l2) || (2048 <=? offset)
                then [uint8 ((l2 - 1) * 4 + tagCopy2); uint8 offset; uint8 (offset / 256)]
                else [uint8 (offset / 256 * 32 + (l2 - 4) * 4 + tagCopy1); uint8 offset])
               ++ rest)
            = dec dLen (forwardCopy d (Z.to_nat offset) (Z.to_nat l2)) rest).
  { intros d l2 Hl2 Hl2' Hd.
    destruct ((12 <=? l2) || (2048 <=? offset)) eqn:Hc.
    - apply dec_copy2; lia.
    - apply orb_false_iff in Hc. destruct Hc as [Hc1 Hc2].
      apply Z.leb_gt in Hc1. apply Z.leb_gt in Hc2.
      apply dec_copy1; lia. }
  destruct (64 <? l1) eqn:H64; cbv beta iota; rewrite <- !app_assoc; rewrite Hdec.
  - apply Z.ltb_lt in H64.
    change (59 * 4 + tagCopy2) with ((60 - 1) * 4 + tagCopy2).
    rewrite dec_copy2 by lia.
    rewrite Hlast.
    + subst dst1. rewrite !forwardCopy_Zadd by lia. f_equal. f_equal. f_equal. lia.
    + lia.
    + lia.
    + rewrite forwardCopy_len, Z2Nat.id by lia. lia.
  - apply Z.ltb_ge in H64. cbn [app].
    rewrite Hlast by lia.
    subst dst1. rewrite forwardCopy_Zadd by lia. f_equal. f_equal. f_equal. lia.
Qed.

Lemma uint8_u8 (b : byte) : uint8 (u8 b) = b.
Proof.
  unfold uint8, u8. pose proof (u8_range b) as H. unfold u8 in H.
  rewrite Z.mod_small by assumption.
  rewrite N2Z.id, Byte.of_to_N. reflexivity.
Qed.

Lemma u8_inj (a b : byte) : u8 a = u8 b -> a = b.
Proof. intros H. rewrite <- (uint8_u8 a), <- (uint8_u8 b), H. reflexivity. Qed.

Lemma le_nonneg (a : bytes) : 0 <= le a.
Proof.
  induction a as [|x a IH]; cbn [le]; [lia|].
  pose proof (u8_range x). lia.
Qed.

Lemma le_inj (a : bytes) :
  forall b, List.length a = List.length b -> le a = le b -> a = b.
Proof.
  induction a as [|x a IH]; intros [|y b] Hlen H; try discriminate; try reflexivity.
  cbn [le] in H. cbn [List.length] in Hlen.
  pose proof (u8_range x). pose proof (u8_range y).
  pose proof (le_nonneg a). pose proof (le_nonneg b).
  assert (u8 x = u8 y) by lia. assert (le a = le b) by lia.
  f_equal; [apply u8_inj; assumption | apply IH; [lia | assumption]].
Qed.

(** Equal [load32]s are four equal bytes. *)
Lemma load32_match (src : bytes) (s c : nat) :
  (s + 4 <= List.length src)%nat -> (c + 4 <= List.length src)%nat ->
  load32 src s = load32 src c ->
  forall k, (k < 4)%nat -> nth (c + k) src x00 = nth (s + k) src x00.
Proof.
  intros Hs Hc H k Hk. unfold load32 in H.
  apply le_inj in H.
  2:{ rewrite !length_firstn, !length_skipn. lia. }
  assert (E : nth k (firstn 4 (skipn s src)) x00 = nth k (firstn 4 (skipn c src)) x00)
    by (rewrite H; reflexivity).
  rewrite !nth_firstn, !nth_skipn in E.
  replace (k <? 4)%nat with true in E by (symmetry; apply Nat.ltb_lt; lia).
  symmetry. exact E.
Qed.

Lemma extendMatch_spec (src : bytes) (fuel : nat) :
  forall i s : nat,
    (s <= extendMatch fuel src i s)%nat /\
    ((s <= List.length src)%nat -> (extendMatch fuel src i s <= List.length src)%nat) /\
    forall k, (k < extendMatch fuel src i s - s)%nat ->
              nth (i + k) src x00 = nth (s + k) src x00.
Proof.
  induction fuel as [|fuel IH]; intros i s; cbn [extendMatch].
  - repeat split; lia.
  - destruct ((s <? List.length src)%nat && Byte.eqb (nth i src x00) (nth s src x00)) eqn:E.
    + apply andb_true_iff in E. destruct E as [E1 E2].
      apply Nat.ltb_lt in E1. apply Byte.byte_dec_bl in E2.
      destruct (IH (S i) (S s)) as (H1 & H2 & H3).
      repeat split; try lia.
      intros k Hk. destruct k as [|k].
      * rewrite !Nat.add_0_r. assumption.
      * replace (i + S k)%nat with (S i + k)%nat by lia.
        replace (s + S k)%nat with (S s + k)%nat by lia.
        apply H3. lia.
    + repeat split; lia.
Qed.

Lemma firstn_succ (src : bytes) (n : nat) :
  (n < List.length src)%nat ->
  firstn (S n) src = firstn n src ++ [nth n src x00].
Proof.
  revert n. induction src as [|x src IH]; intros n Hn; [cbn in Hn; lia|].
  destruct n as [|n]; [reflexivity|].
  cbn [firstn nth app]. f_equal. apply IH. cbn in Hn. lia.
Qed.

Lemma firstn_firstn_skipn (src : bytes) (n m : nat) :
  firstn n src ++ firstn m (skipn n src) = firstn (n + m) src.
Proof.
  rewrite firstn_skipn_comm.
  rewrite <- (firstn_skipn n (firstn (n + m) src)) at 2.
  f_equal. rewrite firstn_firstn. f_equal. lia.
Qed.

(** A copy of bytes that repeat earlier bytes of [src] extends the decoded
    prefix of [src]. *)
Lemma forwardCopy_match (src pre : bytes) (n : nat) :
  forall base cand : nat,
    (cand < base)%nat -> (base + n <= List.length src)%nat ->
    (forall k, (k < n)%nat -> nth (cand + k) src x00 = nth (base + k) src x00) ->
    forwardCopy (pre ++ firstn base src) (base - cand) n
    = pre ++ firstn (base + n) src.
Proof.
  induction n as [|n IH]; intros base cand Hc Hb Hm.
  - rewrite Nat.add_0_r. reflexivity.
  - cbn [forwardCopy].
    assert (Hnth : nth (List.length (pre ++ firstn base src) - (base - cand))
                     (pre ++ firstn base src) x00 = nth base src x00).
    { rewrite length_app, length_firstn.
      replace (List.length pre + Nat.min base (List.length src) - (base - cand))%nat
        with (List.length pre + cand)%nat by lia.
      rewrite app_nth2 by lia.
      replace (List.length pre + cand - List.length pre)%nat with cand by lia.
      rewrite nth_firstn.
      replace (cand <? base)%nat with true by (symmetry; apply Nat.ltb_lt; lia).
      specialize (Hm O ltac:(lia)). rewrite !Nat.add_0_r in Hm. assumption. }
    rewrite Hnth, <- app_assoc, <- firstn_succ by lia.
    replace (base - cand)%nat with (S base - S cand)%nat by lia.
    rewrite IH; [f_equal; f_equal; lia | lia | lia |].
    intros k Hk. specialize (Hm (S k) ltac:(lia)).
    replace (S cand + k)%nat with (cand + S k)%nat by lia.
    replace (S base + k)%nat with (base + S k)%nat by lia. assumption.
Qed.

Lemma below_lookup (table : Table) (bound : nat) (h : Z) :
  below table bound -> (lookup table h < bound)%nat.
Proof. intros H. apply H. Qed.

Lemma below_store (table : Table) (bound bound' : nat) (h : Z) (s : nat) :
  below table bound -> (bound <= bound')%nat -> (s < bound')%nat ->
  below (store table h s) bound'.
Proof.
  intros H Hb Hs k. unfold store. destruct (k =? h mod (tableMask + 1)); [lia|].
  specialize (H k). lia.
Qed.

Lemma search_spec (src : bytes) (shift : Z) (sLimit : nat) (fuel : nat) :
  forall (table : Table) (nextHash : Z) (nextS skip s cand : nat) (table' : Table),
    search fuel src shift sLimit table nextHash nextS skip = Some (s, cand, table') ->
    below table nextS -> (32 <= skip)%nat ->
    (nextS <= s)%nat /\ (s < sLimit)%nat /\ (cand < s)%nat /\
    load32 src s = load32 src cand /\ below table' (S s).
Proof.
  induction fuel as [|fuel IH]; intros table nextHash nextS skip s cand table' E Hb Hskip;
    [discriminate|].
  cbn [search] in E.
  assert (Hpos : (0 < skip / 32)%nat) by (apply Nat.div_str_pos; lia).
  set (b := (skip / 32)%nat) in *.
  destruct (sLimit <? nextS + b)%nat eqn:Hlim; [discriminate|].
  apply Nat.ltb_ge in Hlim.
  destruct (load32 src nextS =? load32 src (lookup table nextHash)) eqn:Heq.
  - injection E as <- <- <-. apply Z.eqb_eq in Heq.
    pose proof (below_lookup table nextS nextHash Hb).
    repeat split; try lia; try assumption.
    apply below_store with (bound := nextS); [assumption | lia | lia].
  - apply IH in E; [| |lia].
    + destruct E as (H1 & H2 & H3 & H4 & H5). repeat split; try lia; assumption.
    + apply below_store with (bound := nextS); [assumption | lia | lia].
Qed.

Section EncodeBlock.
Variables (dLen : Z) (src pre : bytes) (shift : Z) (sLimit : nat).
Hypothesis Hsrc : len src <= 65536.
Hypothesis Hlimit : (sLimit + 15 <= List.length src)%nat.
Hypothesis Hroom : len pre + len src <= dLen.

Lemma len_prefix (n : nat) :
  (n <= List.length src)%nat -> len (pre ++ firstn n src) = len pre + Z.of_nat n.
Proof. intros H. unfold len. rewrite length_app, length_firstn. lia. Qed.

(** The literal that closes a block. *)
Lemma dec_remainder (nextEmit : nat) (rest : bytes) :
  (nextEmit <= List.length src)%nat ->
  dec dLen (pre ++ firstn nextEmit src) (remainder src nextEmit ++ rest)
  = dec dLen (pre ++ src) rest.
Proof.
  intros H. unfold remainder. destruct (nextEmit <? List.length src)%nat eqn:E.
  - apply Nat.ltb_lt in E.
    assert (Hl : len (skipn nextEmit src) = len src - Z.of_nat nextEmit).
    { unfold len. rewrite length_skipn. lia. }
    rewrite dec_emitLiteral.
    + rewrite <- app_assoc, firstn_skipn. reflexivity.
    + unfold len in *. lia.
    + rewrite len_prefix by lia. lia.
  - apply Nat.ltb_ge in E. rewrite firstn_all2 by lia. reflexivity.
Qed.

(** The copies that follow a match at [s] extend the decoded prefix of
    [src] from [s] to the position they stop at. *)
Lemma copies_spec (fuel : nat) :
  forall (table : Table) (cand s : nat) (out : bytes) (nextEmit : nat) (nx : next)
         (rest : bytes),
    copies fuel src shift sLimit table cand s = (out, nextEmit, nx) ->
    (cand < s)%nat -> (s < sLimit)%nat ->
    load32 src s = load32 src cand -> below table (S s) ->
    dec dLen (pre ++ firstn s src) (out ++ rest)
    = dec dLen (pre ++ firstn nextEmit src) rest /\
    (nextEmit <= List.length src)%nat /\
    match nx with
    | emitRemainder => True
    | resume s' _ table' => s' = S nextEmit /\ below table' s'
    end.
Proof.
  induction fuel as [|fuel IH];
    intros table cand s out nextEmit nx rest E Hc Hs Hload Hb.
  - cbn in E. injection E as <- <- <-. repeat split; lia.
  - cbn [copies] in E.
    destruct (extendMatch_spec src (List.length src) (cand + 4) (s + 4))
      as (He1 & He2 & He3).
    set (e := extendMatch (List.length src) src (cand + 4) (s + 4)) in *.
    specialize (He2 ltac:(lia)).
    assert (Hmatch : forall k, (k < e - s)%nat ->
              nth (cand + k) src x00 = nth (s + k) src x00).
    { intros k Hk. destruct (Nat.lt_ge_cases k 4) as [H4|H4].
      - apply load32_match; (lia || assumption).
      - specialize (He3 (k - 4)%nat ltac:(lia)).
        replace (cand + 4 + (k - 4))%nat with (cand + k)%nat in He3 by lia.
        replace (s + 4 + (k - 4))%nat with (s + k)%nat in He3 by lia.
        assumption. }
    assert (Hcopy : forall rest',
              dec dLen (pre ++ firstn s src)
                (emitCopy (Z.of_nat (s - cand)) (Z.of_nat (e - s)) ++ rest')
              = dec dLen (pre ++ firstn e src) rest').
    { intros rest'.
      rewrite dec_emitCopy;
        try (rewrite ?len_prefix by lia; unfold len in *; lia).
      rewrite !Nat2Z.id. rewrite forwardCopy_match by (assumption || lia).
      replace (s + (e - s))%nat with e by lia. reflexivity. }
    destruct (sLimit <=? e)%nat eqn:Hlim.
    { injection E as <- <- <-. repeat split; [apply Hcopy | lia]. }
    apply Nat.leb_gt in Hlim.
    set (table1 := store table (hash (load32 src (e - 1)) shift) (e - 1)) in *.
    set (cand' := lookup table1 (hash (load32 src e) shift)) in *.
    set (table2 := store table1 (hash (load32 src e) shift) e) in *.
    assert (Hb1 : below table1 e).
    { apply below_store with (bound := S s); [assumption | lia | lia]. }
    assert (Hc' : (cand' < e)%nat) by (apply below_lookup; assumption).
    assert (Hb2 : below table2 (S e)).
    { apply below_store with (bound := e); [assumption | lia | lia]. }
    destruct (load32 src e =? load32 src cand') eqn:Heq; cbn [negb] in E.
    + apply Z.eqb_eq in Heq.
      destruct (copies fuel src shift sLimit table2 cand' e) as [[out' nextEmit'] nx'] eqn:E'.
      injection E as <- <- <-.
      destruct (IH table2 cand' e out' nextEmit' nx' rest E' Hc' Hlim Heq Hb2)
        as (Hdec & Hle & Hnx).
      repeat split; [|assumption|assumption].
      rewrite <- app_assoc, Hcopy. assumption.
    + injection E as <- <- <-. repeat split; [apply Hcopy | lia | assumption].
Qed.

(** The loop of [encodeBlock], from the position [nextEmit] on. *)
Lemma encodeBlock_loop_spec (fuel : nat) :
  forall (table : Table) (nextHash : Z) (s nextEmit : nat) (rest : bytes),
    (nextEmit < s)%nat -> (nextEmit <= List.length src)%nat -> below table s ->
    dec dLen (pre ++ firstn nextEmit src)
      (encodeBlock_loop fuel src shift sLimit table nextHash s nextEmit ++ rest)
    = dec dLen (pre ++ src) rest.
Proof.
  induction fuel as [|fuel IH]; intros table nextHash s nextEmit rest Hne Hle Hb.
  - cbn [encodeBlock_loop]. apply dec_remainder. assumption.
  - cbn [encodeBlock_loop].
    destruct (search (List.length src) src shift sLimit table nextHash s 32)
      as [[[s' cand] table']|] eqn:Es; [|apply dec_remainder; assumption].
    apply search_spec in Es; [|assumption|lia].
    destruct Es as (Hs1 & Hs2 & Hs3 & Hs4 & Hs5).
    destruct (copies (List.length src) src shift sLimit table' cand s')
      as [[out nextEmit'] nx] eqn:Ec.
    rewrite <- !app_assoc.
    rewrite dec_emitLiteral.
    2:{ unfold len in *. rewrite length_firstn, length_skipn. lia. }
    2:{ rewrite len_prefix by lia. unfold len in *.
        rewrite length_firstn, length_skipn. lia. }
    rewrite <- app_assoc, firstn_firstn_skipn.
    replace (nextEmit + (s' - nextEmit))%nat with s' by lia.
    destruct (copies_spec (List.length src) table' cand s' out nextEmit' nx
                (match nx with
                 | emitRemainder => remainder src nextEmit'
                 | resume s0 nextHash0 table0 =>
                     encodeBlock_loop fuel src shift sLimit table0 nextHash0 s0 nextEmit'
                 end ++ rest) Ec Hs3 Hs2 Hs4 Hs5) as (Hdec & Hle' & Hnx).
    rewrite Hdec. destruct nx as [|s'' nextHash'' table''].
    + apply dec_remainder. assumption.
    + destruct Hnx as [-> Hb'']. apply IH; [lia | assumption | assumption].
Qed.

End EncodeBlock.

(** [decode] over a block that [encodeBlock] wrote. *)
Lemma dec_encodeBlock (dLen : Z) (pre src rest : bytes) :
  17 <= len src <= 65536 ->
  len pre + len src <= dLen ->
  dec dLen pre (encodeBlock src ++ rest) = dec dLen (pre ++ src) rest.
Proof.
  intros Hsrc Hroom. unfold encodeBlock.
  rewrite <- (app_nil_r pre) at 1.
  change (@nil byte) with (firstn 0 src) at 1.
  apply encodeBlock_loop_spec; unfold len, inputMargin in *; try lia.
  intros h. lia.
Qed.

Section Blocks.
Local Opaque maxBlockSize Z.to_nat.

Lemma block_split (c : byte) (src : bytes) :
  let p := firstn (Z.to_nat maxBlockSize) (c :: src) in
  let src' := skipn (Z.to_nat maxBlockSize) (c :: src) in
  1 <= len p <= 65536 /\ p ++ src' = c :: src /\
  (List.length src' < List.length (c :: src))%nat.
Proof.
  cbn zeta. pose proof maxBlockSize_nat as Hm.
  split; [|split].
  - unfold len. rewrite length_firstn. cbn [List.length]. lia.
  - apply firstn_skipn.
  - rewrite length_skipn. cbn [List.length]. lia.
Qed.

(** [decode] reads back the blocks that [Encode] writes. *)
Lemma dec_encode_blocks (fuel : nat) :
  forall (src dst : bytes) (dLen : Z),
    (List.length src <= fuel)%nat ->
    len dst + len src = dLen ->
    dec dLen dst (encode_blocks fuel src) = Some (dst ++ src).
Proof.
  induction fuel as [|k IH]; intros src dst dLen Hf Hlen.
  - destruct src; [|cbn in Hf; lia].
    cbn [encode_blocks]. rewrite app_nil_r. apply dec_nil.
    change (len []) with 0 in Hlen. lia.
  - destruct src as [|c src].
    + cbn [encode_blocks]. rewrite app_nil_r. apply dec_nil.
      change (len []) with 0 in Hlen. lia.
    + cbn [encode_blocks].
      destruct (block_split c src) as (Hp & Hsplit & Hlt). cbn zeta in *.
      set (p := firstn (Z.to_nat maxBlockSize) (c :: src)) in *.
      set (src' := skipn (Z.to_nat maxBlockSize) (c :: src)) in *.
      assert (Hsum : len p + len src' = len (c :: src)).
      { rewrite <- len_app, Hsplit. reflexivity. }
      pose proof (len_nonneg src').
      assert (Hblock : dec dLen dst
                (((if len p <? minNonLiteralBlockSize
                   then emitLiteral p else encodeBlock p)) ++ encode_blocks k src')
              = dec dLen (dst ++ p) (encode_blocks k src')).
      { destruct (len p <? minNonLiteralBlockSize) eqn:E.
        - apply dec_emitLiteral; lia.
        - apply Z.ltb_ge in E. unfold minNonLiteralBlockSize in E.
          apply dec_encodeBlock; lia. }
      rewrite Hblock, IH.
      * rewrite <- app_assoc, Hsplit. reflexivity.
      * lia.
      * rewrite len_app. lia.
Qed.

End Blocks.

(** Decoding what [Encode] wrote gives the input back. *)
Lemma Decode_Encode (x : bytes) : Decode (Encode x) = Some x.
Proof.
  unfold Decode, Encode.
  rewrite Uvarint_putUvarint by (unfold len; lia).
  rewrite Z.pow_0_r, Z.mul_1_r, Z.add_0_l.
  apply (dec_encode_blocks (List.length x) x [] (len x)); [lia | reflexivity].
Qed.

End snappy_facts.

(** C3.  For every byte sequence [x], decompressing the compressed form of
    [x] returns [x]. *)
Theorem decompress_compress (x : bytes) :
  snappy.Decode (snappy.Encode x) = Some x.
Proof. apply snappy_facts.Decode_Encode. Qed.

(* ================================================================== *)
(** * The merged array as JSON *)

(** X10.  When every row's [orders] value is the array of the elements [ess] and
    no row's array is empty, the merge returns the array of all the elements,
    row after row. *)
Lemma merge_of_nonempty_arrays (L : Libs) (rows : Rows) (ess : list (list bytes)) :
  Forall2 (fun r es => orders_of r = Ret (array_lit es)) rows ess ->
  Forall (fun es => es <> []) ess ->
  concatRowsToJSON rows = Ret (array_lit (concat ess)).
Proof.
  intros Hrows Hne. rewrite concatRowsToJSON_chunks.
  assert (Hcs : chunks_of rows = Ret (map (join (B ",")) ess)).
  { apply chunks_of_Ret. clear Hne.
    induction Hrows as [|r es rows ess Hr _ IH]; [constructor|].
    cbn [map]. constructor; [|assumption].
    unfold spliced. rewrite Hr, slice_array_lit. reflexivity. }
  rewrite Hcs, join_groups by assumption. reflexivity.
Qed.

(** The merge of no rows is the empty array. *)
Lemma merge_of_no_rows (L : Libs) : concatRowsToJSON [] = Ret (B "[]").
Proof. reflexivity. Qed.

(** C1, at a failing input.  Two messages about type 34 are acknowledged, the
    first with an empty [orders] array, the second with one order.  Both
    stored payloads hold a JSON array under [orders], yet the request for the
    type is answered with status 200 and the body [[,1]], which is not JSON:
    the comma that follows the empty chunk stays in the output. *)
Lemma merge_with_an_empty_orders_array_is_not_json :
  let first := J "{'regionID':1,'typeID':34,'orders':[]}" in
  let second := J "{'regionID':2,'typeID':34,'orders':[1]}" in
  exists db1 db2,
    handleMessage healthy first empty_db = (None, db1) /\
    handleMessage healthy second db1 = (None, db2) /\
    jsonparser.Get first "orders" = Some (B "[]", jsonparser.Array) /\
    jsonparser.Get second "orders" = Some (B "[1]", jsonparser.Array) /\
    GET healthy "/api/orders/v1/type/34/" db2
    = Some (Data 200 "application/json; charset=utf-8" (B "[,1]"), db2) /\
    JSON.valid (B "[,1]") = false.
Proof. do 2 eexists. repeat split; vm_compute; reflexivity. Qed.

(* ================================================================== *)
(** * Further properties of the ingestion handler *)

(** X1.  A message is acknowledged exactly when both key fields are read and the
    three store calls succeed; the table then differs by the upsert of the
    compressed body under the key read from the body, and no transaction
    stays open.  The [orders] field is not looked at. *)
Theorem handleMessage_acknowledged_iff
    (L : Libs) (f : faults) (body : bytes) (db db' : DB) :
  handleMessage f body db = (None, db') <->
  exists r t,
    jsonparser_GetInt body "regionID" = Some r /\
    jsonparser_GetInt body "typeID" = Some t /\
    begin_fails f = false /\ exec_fails f = false /\ commit_fails f = false /\
    db' = {| markets := upsert r t (snappy_Encode body) (markets db);
             open_tx := open_tx db |}.
Proof.
  unfold handleMessage, Begin, Commit. split.
  - intros H.
    destruct (jsonparser_GetInt body "regionID") as [r|]; [|discriminate].
    destruct (jsonparser_GetInt body "typeID") as [t|]; [|discriminate].
    destruct (begin_fails f); [discriminate|].
    destruct (exec_fails f); [discriminate|].
    destruct (commit_fails f); [discriminate|].
    cbn in H. injection H as <-. exists r, t. repeat split.
  - intros (r & t & -> & -> & -> & -> & -> & ->). reflexivity.
Qed.

(** X2.  A message that is answered with an error, whichever call failed, leaves
    the table as it was. *)
Theorem handleMessage_error_keeps_table
    (L : Libs) (f : faults) (body : bytes) (db db' : DB) (e : error) :
  handleMessage f body db = (Some e, db') -> markets db' = markets db.
Proof.
  unfold handleMessage, Begin, Commit.
  destruct (jsonparser_GetInt body "regionID") as [r|];
    [|intros H; injection H as _ <-; reflexivity].
  destruct (jsonparser_GetInt body "typeID") as [t|];
    [|intros H; injection H as _ <-; reflexivity].
  destruct (begin_fails f); [intros H; injection H as _ <-; reflexivity|].
  destruct (exec_fails f); [intros H; injection H as _ <-; reflexivity|].
  destruct (commit_fails f); [intros H; injection H as _ <-; reflexivity|].
  discriminate.
Qed.

Lemma handleMessage_error_keeps_table_witness :
  markets (snd (handleMessage commit_refused price_now
                  (snd (handleMessage healthy price_then empty_db))))
  = markets (snd (handleMessage healthy price_then empty_db)).
Proof.
  apply (handleMessage_error_keeps_table golibs commit_refused price_now
           (snd (handleMessage healthy price_then empty_db)) _ SQLError).
  vm_compute. reflexivity.
Defined.

(** X3.  The transaction of [handleMessage] stays open exactly when [tx.Exec]
    fails: the handler returns the error without a rollback.  On every other
    path the count of open transactions is what it was. *)
Theorem handleMessage_open_tx (L : Libs) (f : faults) (body : bytes) (db : DB) :
  open_tx (snd (handleMessage f body db)) =
  match jsonparser_GetInt body "regionID", jsonparser_GetInt body "typeID" with
  | Some _, Some _ =>
      if negb (begin_fails f) && exec_fails f then S (open_tx db) else open_tx db
  | _, _ => open_tx db
  end.
Proof.
  unfold handleMessage, Begin, Commit.
  destruct (jsonparser_GetInt body "regionID"); [|reflexivity].
  destruct (jsonparser_GetInt body "typeID"); [|reflexivity].
  destruct (begin_fails f); [reflexivity|].
  destruct (exec_fails f); [reflexivity|].
  destruct (commit_fails f); reflexivity.
Qed.

Lemma same_key_false (r t r' t' : Z) (x : row) :
  (r', t') <> (r, t) -> same_key r t x = true -> same_key r' t' x = false.
Proof.
  intros Hne H. apply same_key_true in H.
  destruct (same_key r' t' x) eqn:H'; [|reflexivity].
  apply same_key_true in H'. congruence.
Qed.

(** The upsert leaves the rows of every other key as they were. *)
Lemma filter_upsert_other (r t r' t' : Z) (m : bytes) (tb : table) :
  (r', t') <> (r, t) ->
  filter (same_key r' t') (upsert r t m tb) = filter (same_key r' t') tb.
Proof.
  intros Hne.
  assert (Hnew : same_key r' t' {| regionID := r; typeID := t; market := m |} = false).
  { apply same_key_false with (r := r) (t := t); [assumption|].
    apply same_key_true. reflexivity. }
  induction tb as [|x tb IH]; cbn [upsert filter].
  - rewrite Hnew. reflexivity.
  - destruct (same_key r t x) eqn:Hk; cbn [filter].
    + rewrite Hnew, (same_key_false r t r' t' x Hne Hk). reflexivity.
    + rewrite IH. reflexivity.
Qed.

(** X4.  Whatever a message for the key (r, t) ends with, the rows of every other
    key are what they were. *)
Theorem handleMessage_other_keys_unchanged
    (L : Libs) (f : faults) (body : bytes) (db : DB) (r t r' t' : Z) :
  jsonparser_GetInt body "regionID" = Some r ->
  jsonparser_GetInt body "typeID" = Some t ->
  (r', t') <> (r, t) ->
  filter (same_key r' t') (markets (snd (handleMessage f body db)))
  = filter (same_key r' t') (markets db).
Proof.
  intros Hr Ht Hne. unfold handleMessage, Begin, Commit. rewrite Hr, Ht.
  destruct (begin_fails f); [reflexivity|].
  destruct (exec_fails f); [reflexivity|].
  destruct (commit_fails f); [reflexivity|].
  cbn [snd markets]. apply filter_upsert_other. assumption.
Qed.

Lemma handleMessage_other_keys_unchanged_witness :
  filter (same_key 10000002 34)
    (markets (snd (handleMessage healthy (J "{'regionID':10000002,'typeID':35,'orders':[]}")
                     (snd (handleMessage healthy price_then empty_db)))))
  = filter (same_key 10000002 34)
      (markets (snd (handleMessage healthy price_then empty_db))).
Proof.
  apply (handleMessage_other_keys_unchanged golibs healthy
           (J "{'regionID':10000002,'typeID':35,'orders':[]}")
           (snd (handleMessage healthy price_then empty_db)) 10000002 35 10000002 34).
  - vm_compute. reflexivity.
  - vm_compute. reflexivity.
  - discriminate.
Defined.

Lemma upsert_idempotent (r t : Z) (m : bytes) (tb : table) :
  upsert r t m (upsert r t m tb) = upsert r t m tb.
Proof.
  assert (Hnew : same_key r t {| regionID := r; typeID := t; market := m |} = true).
  { apply same_key_true. reflexivity. }
  induction tb as [|x tb IH]; cbn [upsert].
  - rewrite Hnew. reflexivity.
  - destruct (same_key r t x) eqn:Hk; cbn [upsert].
    + rewrite Hnew. reflexivity.
    + rewrite Hk, IH. reflexivity.
Qed.

(** X5.  A message delivered again after it was acknowledged changes nothing: the
    second acknowledged call leaves the database as the first left it. *)
Theorem redelivery_changes_nothing
    (L : Libs) (f f' : faults) (body : bytes) (db db1 db2 : DB) :
  handleMessage f body db = (None, db1) ->
  handleMessage f' body db1 = (None, db2) ->
  db2 = db1.
Proof.
  intros H1 H2.
  apply handleMessage_acknowledged in H1. destruct H1 as (r & t & Hr & Ht & ->).
  apply handleMessage_acknowledged in H2. destruct H2 as (r' & t' & Hr' & Ht' & ->).
  rewrite Hr in Hr'. rewrite Ht in Ht'. injection Hr' as <-. injection Ht' as <-.
  cbn [markets open_tx]. rewrite upsert_idempotent. reflexivity.
Qed.

Lemma redelivery_changes_nothing_witness :
  snd (handleMessage healthy price_then (snd (handleMessage healthy price_then empty_db)))
  = snd (handleMessage healthy price_then empty_db).
Proof.
  apply (redelivery_changes_nothing golibs healthy healthy price_then empty_db);
    vm_compute; reflexivity.
Defined.

(** The table after one call of the handler, by what the call ended with. *)
Lemma handleMessage_markets (L : Libs) (f : faults) (body : bytes) (db : DB) :
  markets (snd (handleMessage f body db)) =
  match acknowledged f body with
  | Some (r, t) => upsert r t (snappy_Encode body) (markets db)
  | None => markets db
  end.
Proof.
  unfold handleMessage, acknowledged, Begin, Commit.
  destruct (jsonparser_GetInt body "regionID"); [|reflexivity].
  destruct (jsonparser_GetInt body "typeID"); [|reflexivity].
  destruct (begin_fails f); [reflexivity|].
  destruct (exec_fails f); [reflexivity|].
  destruct (commit_fails f); reflexivity.
Qed.

Lemma handleMessage_primary_key (L : Libs) (f : faults) (body : bytes) (db : DB) :
  primary_key (markets db) -> primary_key (markets (snd (handleMessage f body db))).
Proof.
  intros H. rewrite handleMessage_markets.
  destruct (acknowledged f body) as [[r t]|]; [|assumption].
  apply upsert_primary_key. assumption.
Qed.

Lemma deliver_primary_key (L : Libs) (msgs : list (faults * bytes)) :
  forall db, primary_key (markets db) -> primary_key (markets (deliver msgs db)).
Proof.
  induction msgs as [|[f body] msgs IH]; intros db H; [assumption|].
  cbn [deliver]. apply IH. apply handleMessage_primary_key. assumption.
Qed.



(** X7.  Every table reached from the empty one by delivering messages satisfies
    the primary key. *)
Theorem deliver_keeps_primary_key (L : Libs) (msgs : list (faults * bytes)) :
  primary_key (markets (deliver msgs empty_db)).
Proof. apply deliver_primary_key. constructor. Qed.

(* ================================================================== *)
(** * Further properties of the merge *)

Lemma join_app (sep : bytes) (a b : list bytes) :
  a <> [] -> b <> [] -> join sep (a ++ b) = join sep a ++ sep ++ join sep b.
Proof.
  induction a as [|x a IH]; intros Ha Hb; [congruence|].
  destruct a as [|y a].
  - destruct b as [|z b]; [congruence | reflexivity].
  - change ((x :: y :: a) ++ b) with (x :: (y :: a) ++ b).
    change (join sep (x :: (y :: a) ++ b))
      with (x ++ sep ++ join sep ((y :: a) ++ b)).
    rewrite IH by (assumption || congruence).
    cbn [join]. rewrite <- !app_assoc. reflexivity.
Qed.

Lemma chunks_of_app (L : Libs) (a b : Rows) :
  chunks_of (a ++ b) =
  match chunks_of a with
  | Ret ca =>
      match chunks_of b with
      | Ret cb => Ret (ca ++ cb)
      | Fail e => Fail e
      | Panic => Panic
      end
  | Fail e => Fail e
  | Panic => Panic
  end.
Proof.
  induction a as [|r a IH]; cbn [app chunks_of].
  - destruct (chunks_of b); reflexivity.
  - destruct (spliced r); try reflexivity.
    rewrite IH. destruct (chunks_of a); try reflexivity.
    destruct (chunks_of b); reflexivity.
Qed.

Lemma concat_one_row (L : Libs) (r : option bytes) (c : bytes) :
  spliced r = Ret c -> concatRowsToJSON [r] = Ret (B "[" ++ c ++ B "]").
Proof.
  intros H. rewrite concatRowsToJSON_chunks. cbn [chunks_of]. rewrite H. reflexivity.
Qed.

Lemma spliced_bracketed (L : Libs) (r : option bytes) (inner : bytes) :
  orders_of r = Ret (B "[" ++ inner ++ B "]") -> spliced r = Ret inner.
Proof.
  intros H. unfold spliced. rewrite H.
  change (B "[" ++ inner ++ B "]") with ("["%byte :: inner ++ ["]"%byte]).
  rewrite slice_inner. reflexivity.
Qed.

(** X9.  The merge of one row whose [orders] value stands between brackets is
    that value, byte for byte, also when nothing stands between them. *)
Theorem merge_of_one_row (L : Libs) (r : option bytes) (body : bytes) :
  orders_of r = Ret (B "[" ++ body ++ B "]") ->
  concatRowsToJSON [r] = Ret (B "[" ++ body ++ B "]").
Proof. intros H. apply concat_one_row, spliced_bracketed. assumption. Qed.

Lemma merge_of_one_row_witness :
  concatRowsToJSON [ Some (snappy.Encode (J "{'regionID':1,'typeID':34,'orders':[]}")) ]
  = Ret (B "[" ++ [] ++ B "]").
Proof.
  apply (merge_of_one_row golibs). vm_compute. reflexivity.
Defined.

Lemma merge_of_nonempty_arrays_witness :
  concatRowsToJSON two_rows
  = Ret (array_lit (concat [ [J "{'price':1}"; J "{'price':2}"]; [J "{'price':3}"] ])).
Proof.
  apply (merge_of_nonempty_arrays golibs two_rows
           [ [J "{'price':1}"; J "{'price':2}"]; [J "{'price':3}"] ]).
  - repeat constructor.
  - repeat constructor; discriminate.
Defined.

(** X11.  The merge of two result sets, one after the other, is the first array
    without its closing bracket, a comma, and the second array without its
    opening bracket. *)
Theorem merge_of_appended_rows (L : Libs) (rows1 rows2 : Rows) (out1 out2 : bytes) :
  concatRowsToJSON rows1 = Ret out1 ->
  concatRowsToJSON rows2 = Ret out2 ->
  rows1 <> [] -> rows2 <> [] ->
  exists a b,
    out1 = a ++ B "]" /\ out2 = B "[" ++ b /\
    concatRowsToJSON (rows1 ++ rows2) = Ret (a ++ B "," ++ b).
Proof.
  intros H1 H2 Hne1 Hne2. rewrite concatRowsToJSON_chunks in *.
  rewrite chunks_of_app.
  destruct (chunks_of rows1) as [c1| |] eqn:E1; try discriminate.
  destruct (chunks_of rows2) as [c2| |] eqn:E2; try discriminate.
  injection H1 as <-. injection H2 as <-.
  assert (Hc1 : c1 <> []).
  { apply chunks_of_Ret in E1. intros ->. inversion E1. congruence. }
  assert (Hc2 : c2 <> []).
  { apply chunks_of_Ret in E2. intros ->. inversion E2. congruence. }
  exists (B "[" ++ join (B ",") c1), (join (B ",") c2 ++ B "]").
  split; [|split].
  - rewrite <- app_assoc. reflexivity.
  - reflexivity.
  - rewrite join_app by assumption. rewrite <- !app_assoc. reflexivity.
Qed.

Lemma merge_of_appended_rows_witness :
  exists a b,
    J "[{'price':1},{'price':2},{'price':3}]" = a ++ B "]" /\
    J "[{'price':1}]" = B "[" ++ b /\
    concatRowsToJSON (two_rows ++ [nth 0 rows_one_without_orders None])
    = Ret (a ++ B "," ++ b).
Proof.
  apply (merge_of_appended_rows golibs two_rows [nth 0 rows_one_without_orders None]).
  - vm_compute. reflexivity.
  - vm_compute. reflexivity.
  - discriminate.
  - discriminate.
Defined.

(** X12.  The first row that does not splice decides the merge: when the rows
    before it splice, the merge returns that row's error, or panics as that
    row does, and nothing of the rows before it is returned. *)
Theorem first_failure_decides
    (L : Libs) (before after : Rows) (r : option bytes) :
  Forall (fun x => exists c, spliced x = Ret c) before ->
  (forall e, spliced r = Fail e -> concatRowsToJSON (before ++ r :: after) = Fail e) /\
  (spliced r = Panic -> concatRowsToJSON (before ++ r :: after) = Panic).
Proof.
  intros Hb. rewrite concatRowsToJSON_chunks.
  induction Hb as [|x before [c Hx] _ IH]; cbn [app chunks_of].
  - split; [intros e H | intros H]; rewrite H; reflexivity.
  - rewrite Hx. destruct IH as [IH1 IH2]. split.
    + intros e H. specialize (IH1 e H).
      destruct (chunks_of (before ++ r :: after)); congruence.
    + intros H. specialize (IH2 H).
      destruct (chunks_of (before ++ r :: after)); congruence.
Qed.

Lemma first_failure_decides_witness :
  (forall e,
     spliced (Some (B "not snappy")) = Fail e ->
     concatRowsToJSON (two_rows ++ Some (B "not snappy") :: two_rows) = Fail e) /\
  (spliced (Some (B "not snappy")) = Panic ->
   concatRowsToJSON (two_rows ++ Some (B "not snappy") :: two_rows) = Panic).
Proof.
  apply (first_failure_decides golibs two_rows two_rows (Some (B "not snappy"))).
  repeat constructor; eexists; vm_compute; reflexivity.
Defined.

Lemma spliced_panic (L : Libs) (r : option bytes) :
  spliced r = Panic <-> exists orders, orders_of r = Ret orders /\ len orders < 2.
Proof.
  unfold spliced.
  assert (Hnp : orders_of r <> Panic).
  { unfold orders_of. destruct r as [m|]; [|discriminate].
    destruct (snappy_Decode m) as [d|]; [|discriminate].
    destruct (jsonparser_Get d "orders"); discriminate. }
  destruct (orders_of r) as [o| |] eqn:E.
  - destruct (Z_lt_ge_dec (len o) 2) as [Hlt|Hge].
    + rewrite slice_none_short by assumption. split; [eauto | reflexivity].
    + rewrite slice_some by lia. split; [discriminate|].
      intros (o' & H & Hlt). injection H as <-. lia.
  - split; [discriminate | intros (o & H & _); discriminate].
  - congruence.
Qed.

(** X13.  The merge of one row panics exactly when the row scans and
    decompresses and [jsonparser.Get] returns an [orders] value of fewer
    than two bytes, for which [orders[1:len(orders)-1]] is out of range. *)
Theorem merge_panics_iff (L : Libs) (r : option bytes) :
  concatRowsToJSON [r] = Panic <->
  exists orders, orders_of r = Ret orders /\ len orders < 2.
Proof.
  rewrite <- spliced_panic, concatRowsToJSON_chunks. cbn [chunks_of].
  destruct (spliced r); split; congruence.
Qed.

(* ================================================================== *)
(** * Further properties of the query handlers *)

Lemma get_markets (L : Libs) (f : faults) (q : query) (db : DB) :
  markets (snd (get f q db)) = markets db.
Proof.
  rewrite get_cases. destruct (begin_fails f); [reflexivity|]. cbn zeta.
  destruct (Query f q db) as [rows|]; [|reflexivity].
  destruct (concatRowsToJSON rows); try reflexivity.
  destruct (commit_fails f); reflexivity.
Qed.

(** X14.  The query handlers are read-only: after any run of requests, whatever
    each ends with, the table is what it was. *)
Theorem serve_keeps_table (L : Libs) (reqs : list (faults * query)) (db : DB) :
  markets (serve reqs db) = markets db.
Proof.
  revert db. induction reqs as [|[f q] reqs IH]; intros db; [reflexivity|].
  cbn [serve]. rewrite IH. apply get_markets.
Qed.

(** X16.  What a request can be answered with: status 200 with the JSON content
    type and a body between brackets, status 404 or 500 through
    [AbortWithError], or no answer when the handler panics.  No other status
    is ever sent. *)
Theorem get_responses (L : Libs) (f : faults) (q : query) (db : DB) :
  match fst (get f q db) with
  | Data status contentType body =>
      status = 200 /\ contentType = "application/json; charset=utf-8"%string /\
      exists inner, body = B "[" ++ inner ++ B "]"
  | AbortWithError status _ => status = 404 \/ status = 500
  | Panicked => True
  end.
Proof.
  rewrite get_cases. destruct (begin_fails f); [cbn; auto|]. cbn zeta.
  destruct (Query f q db) as [rows|]; [|cbn; auto].
  rewrite concatRowsToJSON_chunks.
  destruct (chunks_of rows) as [cs| |]; [|cbn; auto|cbn; auto].
  destruct (commit_fails f); cbn; eauto.
Qed.

(** X17.  A query that selects no row is answered with status 200 and the body
    [[]] when the store calls succeed, for each of the three handlers. *)
Theorem no_row_yields_empty_array (L : Libs) (f : faults) (q : query) (db : DB) :
  select q (markets db) = Some [] ->
  begin_fails f = false -> query_fails f = false -> commit_fails f = false ->
  get f q db = (Data 200 "application/json; charset=utf-8" (B "[]"), db).
Proof.
  intros Hs Hb Hq Hc. rewrite get_cases. unfold Query.
  rewrite Hb, Hq, Hs, Hc. reflexivity.
Qed.

Lemma no_row_yields_empty_array_witness :
  getType healthy "35" (snd (handleMessage healthy price_then empty_db))
  = (Data 200 "application/json; charset=utf-8" (B "[]"),
     snd (handleMessage healthy price_then empty_db)).
Proof.
  apply (no_row_yields_empty_array golibs healthy (ByType "35")).
  - vm_compute. reflexivity.
  - reflexivity.
  - reflexivity.
  - reflexivity.
Defined.

Lemma filter_same_key_length (r t : Z) (tb : table) :
  primary_key tb -> (List.length (filter (same_key r t) tb) <= 1)%nat.
Proof.
  unfold primary_key. induction tb as [|x tb IH]; intros Hpk; [cbn; lia|].
  inversion Hpk as [|? ? Hnotin Hpk']; subst. cbn [filter].
  destruct (same_key r t x) eqn:Hk.
  - apply same_key_true in Hk. rewrite Hk in Hnotin.
    rewrite (filter_same_key_absent r t tb Hnotin). cbn. lia.
  - apply IH. assumption.
Qed.

(** X18.  On a table that satisfies its primary key, the statement of
    [getRegionType] selects at most one row. *)
Theorem pair_selects_at_most_one_row
    (L : Libs) (region type : string) (tb : table) (rows : Rows) :
  primary_key tb ->
  select (ByRegionType region type) tb = Some rows ->
  (List.length rows <= 1)%nat.
Proof.
  intros Hpk H. cbn [select] in H.
  destruct (pq_int8 region) as [r|]; [|discriminate].
  destruct (pq_int8 type) as [t|]; [|discriminate].
  injection H as <-. rewrite length_map. apply filter_same_key_length. assumption.
Qed.

Lemma pair_selects_at_most_one_row_witness :
  (List.length
     (map (fun x => Some (market x))
        (filter (same_key 10000002 34)
           (markets (snd (handleMessage healthy price_now
                            (snd (handleMessage healthy price_then empty_db))))))) <= 1)%nat.
Proof.
  apply (pair_selects_at_most_one_row golibs "10000002" "34"
           (markets (snd (handleMessage healthy price_now
                            (snd (handleMessage healthy price_then empty_db)))))).
  - apply (handleMessage_primary_key golibs), (handleMessage_primary_key golibs).
    constructor.
  - vm_compute. reflexivity.
Defined.

(** X19.  A message whose [orders] value stands between brackets, once
    acknowledged, is what the request for its pair returns: status 200 and
    the [orders] value byte for byte, whatever else the table holds. *)
Theorem ingest_then_getRegionType
    (L : Libs) (f f' : faults) (body inner : bytes) (region type : string)
    (r t : Z) (db db1 : DB) :
  snappy_Decode (snappy_Encode body) = Some body ->
  jsonparser_GetInt body "regionID" = Some r ->
  jsonparser_GetInt body "typeID" = Some t ->
  jsonparser_Get body "orders" = Some (B "[" ++ inner ++ B "]") ->
  pq_int8 region = Some r ->
  pq_int8 type = Some t ->
  primary_key (markets db) ->
  handleMessage f body db = (None, db1) ->
  begin_fails f' = false -> query_fails f' = false -> commit_fails f' = false ->
  getRegionType f' region type db1
  = (Data 200 "application/json; charset=utf-8" (B "[" ++ inner ++ B "]"), db1).
Proof.
  intros Hcodec Hr Ht Ho Hpr Hpt Hpk H Hb Hq Hc.
  apply handleMessage_acknowledged in H. destruct H as (r' & t' & Hr' & Ht' & ->).
  rewrite Hr in Hr'. rewrite Ht in Ht'. injection Hr' as <-. injection Ht' as <-.
  unfold getRegionType. rewrite get_cases. unfold Query.
  rewrite Hb, Hq, Hc. cbn [select markets open_tx]. rewrite Hpr, Hpt.
  rewrite filter_upsert by assumption. cbn [map market].
  rewrite (concat_one_row L _ inner); [reflexivity|].
  apply spliced_bracketed. unfold orders_of. rewrite Hcodec, Ho. reflexivity.
Qed.

Lemma ingest_then_getRegionType_witness :
  getRegionType healthy "10000002" "34"
    (snd (handleMessage healthy price_now (snd (handleMessage healthy price_then empty_db))))
  = (Data 200 "application/json; charset=utf-8" (B "[" ++ J "{'price':6.0}" ++ B "]"),
     snd (handleMessage healthy price_now (snd (handleMessage healthy price_then empty_db)))).
Proof.
  apply (ingest_then_getRegionType golibs healthy healthy price_now (J "{'price':6.0}")
           "10000002" "34" 10000002 34
           (snd (handleMessage healthy price_then empty_db))).
  - apply snappy_facts.Decode_Encode.
  - vm_compute. reflexivity.
  - vm_compute. reflexivity.
  - vm_compute. reflexivity.
  - vm_compute. reflexivity.
  - vm_compute. reflexivity.
  - apply (handleMessage_primary_key golibs). constructor.
  - vm_compute. reflexivity.
  - reflexivity.
  - reflexivity.
  - reflexivity.
Defined.

(* ================================================================== *)
(** * Properties of the routes *)

Lemma segments_no_slash (a : string) :
  no_slash a = true -> segments a = [a].
Proof.
  induction a as [|c a IH]; intros H; [reflexivity|].
  cbn [no_slash] in H. apply andb_true_iff in H. destruct H as [Hc Ha].
  cbn [segments]. destruct (Ascii.eqb c "/"); [discriminate|].
  rewrite IH by assumption. reflexivity.
Qed.

Lemma segments_app (a rest : string) :
  no_slash a = true ->
  segments (a ++ String "/" rest) = a :: segments rest.
Proof.
  induction a as [|c a IH]; intros H; [reflexivity|].
  cbn [no_slash] in H. apply andb_true_iff in H. destruct H as [Hc Ha].
  cbn [String.append segments]. destruct (Ascii.eqb c "/"); [discriminate|].
  rewrite IH by assumption. reflexivity.
Qed.

(** X23.  The three routes: a GET of the path built from identifiers that
    hold no slash, empty or not, runs the handler of that route with the
    identifiers as its parameters. *)
Theorem routes_bind_parameters
    (L : Libs) (f : faults) (db : DB) (region type : string) :
  no_slash region = true -> no_slash type = true ->
  GET f ("/api/orders/v1/region/" ++ region ++ "/") db
    = Some (getRegion f region db) /\
  GET f ("/api/orders/v1/type/" ++ type ++ "/") db
    = Some (getType f type db) /\
  GET f ("/api/orders/v1/region/" ++ region ++ "/type/" ++ type ++ "/") db
    = Some (getRegionType f region type db).
Proof.
  intros Hsr Hst. unfold GET, route.
  assert (H1 : segments ("/api/orders/v1/region/" ++ region ++ "/")
               = [""; "api"; "orders"; "v1"; "region"; region; ""]%string).
  { change ("/api/orders/v1/region/" ++ region ++ "/")%string
      with ("" ++ String "/" ("api" ++ String "/" ("orders" ++ String "/"
            ("v1" ++ String "/" ("region" ++ String "/" (region ++ String "/" ""))))))%string.
    rewrite !segments_app by (reflexivity || assumption). reflexivity. }
  assert (H2 : segments ("/api/orders/v1/type/" ++ type ++ "/")
               = [""; "api"; "orders"; "v1"; "type"; type; ""]%string).
  { change ("/api/orders/v1/type/" ++ type ++ "/")%string
      with ("" ++ String "/" ("api" ++ String "/" ("orders" ++ String "/"
            ("v1" ++ String "/" ("type" ++ String "/" (type ++ String "/" ""))))))%string.
    rewrite !segments_app by (reflexivity || assumption). reflexivity. }
  assert (H3 : segments ("/api/orders/v1/region/" ++ region ++ "/type/" ++ type ++ "/")
               = [""; "api"; "orders"; "v1"; "region"; region; "type"; type; ""]%string).
  { change ("/api/orders/v1/region/" ++ region ++ "/type/" ++ type ++ "/")%string
      with ("" ++ String "/" ("api" ++ String "/" ("orders" ++ String "/"
            ("v1" ++ String "/" ("region" ++ String "/" (region ++ String "/"
            ("type" ++ String "/" (type ++ String "/" ""))))))))%string.
    rewrite !segments_app by (reflexivity || assumption). reflexivity. }
  rewrite H1, H2, H3.
  change (under_v1 "" "api" "orders" "v1") with true.
  change (String.eqb "region" "region") with true.
  change (String.eqb "type" "type") with true.
  change (String.eqb "type" "region") with false.
  change (String.eqb "" "") with true.
  cbn [andb]. repeat split.
Qed.

Lemma routes_bind_parameters_witness :
  GET healthy ("/api/orders/v1/region/" ++ "10000002" ++ "/") empty_db
    = Some (getRegion healthy "10000002" empty_db) /\
  GET healthy ("/api/orders/v1/type/" ++ "34" ++ "/") empty_db
    = Some (getType healthy "34" empty_db) /\
  GET healthy ("/api/orders/v1/region/" ++ "10000002" ++ "/type/" ++ "34" ++ "/") empty_db
    = Some (getRegionType healthy "10000002" "34" empty_db).
Proof.
  apply (routes_bind_parameters golibs healthy empty_db "10000002" "34"); reflexivity.
Defined.

(* ================================================================== *)
(** * Runs of requests *)

Lemma pool_exhausted_false (db : DB) :
  pool_exhausted db = false <-> (open_tx db < MaxOpenConns)%nat.
Proof. unfold pool_exhausted. apply Nat.leb_gt. Qed.

Lemma get_pooled_cases (L : Libs) (f : faults) (q : query) (db : DB) :
  get_pooled f q db = if pool_exhausted db then None else Some (get f q db).
Proof. unfold get_pooled, Begin_pooled. destruct (pool_exhausted db); reflexivity. Qed.

Lemma get_returns_early (L : Libs) (f : faults) (q : query) (db : DB) :
  open_tx (snd (get f q db))
  = if returns_early (markets db) (f, q) then S (open_tx db) else open_tx db.
Proof.
  rewrite get_open_tx. unfold returns_early, Query.
  destruct (begin_fails f); [reflexivity|]. cbn [negb andb].
  destruct (if query_fails f then None else select q (markets db)) as [rows|];
    [|reflexivity].
  destruct (concatRowsToJSON rows); reflexivity.
Qed.

Lemma serve_pooled_state (L : Libs) (reqs : list (faults * query)) (db db' : DB) :
  serve_pooled reqs db = Some db' ->
  markets db' = markets db /\
  open_tx db'
  = (open_tx db + List.length (filter (returns_early (markets db)) reqs))%nat.
Proof.
  revert db. induction reqs as [|[f q] reqs IH]; intros db; cbn [serve_pooled filter].
  - intros H. injection H as <-. cbn [List.length]. split; [reflexivity | lia].
  - rewrite get_pooled_cases. destruct (pool_exhausted db); [discriminate|].
    destruct (get f q db) as [r db1] eqn:G. intros H. apply IH in H.
    destruct H as [Hm Ho].
    assert (Hm1 : markets db1 = markets db)
      by (change db1 with (snd (r, db1)); rewrite <- G; apply get_markets).
    assert (Ho1 : open_tx db1
                  = if returns_early (markets db) (f, q)
                    then S (open_tx db) else open_tx db)
      by (change db1 with (snd (r, db1)); rewrite <- G; apply get_returns_early).
    rewrite Hm1 in Hm, Ho. split; [assumption|].
    rewrite Ho, Ho1.
    destruct (returns_early (markets db) (f, q)); cbn [List.length]; lia.
Qed.

Lemma serve_pooled_app (L : Libs) (a b : list (faults * query)) (db : DB) :
  serve_pooled (a ++ b) db
  = match serve_pooled a db with
    | Some db' => serve_pooled b db'
    | None => None
    end.
Proof.
  revert db. induction a as [|[f q] a IH]; intros db; [reflexivity|].
  cbn [app serve_pooled]. destruct (get_pooled f q db) as [[r db1]|]; [apply IH | reflexivity].
Qed.

(** X15.  The count of open transactions after a run of requests that were all
    given a connection: one more for every request that began a transaction
    and returned before [tx.Commit], as the handlers never roll back; the
    table is what it was, and the count does not pass the size of the
    pool. *)
Theorem serve_pooled_open_tx
    (L : Libs) (reqs : list (faults * query)) (db db' : DB) :
  serve_pooled reqs db = Some db' ->
  markets db' = markets db /\
  open_tx db'
  = (open_tx db + List.length (filter (returns_early (markets db)) reqs))%nat /\
  (reqs <> [] -> (open_tx db' <= MaxOpenConns)%nat).
Proof.
  intros H. destruct (serve_pooled_state L reqs db db' H) as [Hm Ho].
  split; [assumption|]. split; [assumption|]. intros Hne.
  destruct (exists_last Hne) as (front & [f q] & ->).
  rewrite serve_pooled_app in H.
  destruct (serve_pooled front db) as [db0|]; [|discriminate].
  cbn [serve_pooled] in H. rewrite get_pooled_cases in H.
  destruct (pool_exhausted db0) eqn:Hp; [discriminate|].
  apply pool_exhausted_false in Hp.
  destruct (get f q db0) as [r db1] eqn:G. injection H as <-.
  change db1 with (snd (r, db1)). rewrite <- G, get_returns_early.
  destruct (returns_early (markets db0) (f, q)); lia.
Qed.

Lemma serve_pooled_open_tx_witness :
  let refused := ({| begin_fails := false; exec_fails := false;
                     query_fails := true; commit_fails := false |},
                  ByRegion "10000002") in
  let answered := (healthy, ByType "34") in
  let db := snd (handleMessage healthy price_then empty_db) in
  let db' := {| markets := markets db; open_tx := 2 |} in
  serve_pooled [refused; answered; refused] db = Some db' /\
  markets db' = markets db /\
  open_tx db'
  = (open_tx db
     + List.length (filter (returns_early (markets db)) [refused; answered; refused]))%nat /\
  ([refused; answered; refused] <> [] -> (open_tx db' <= MaxOpenConns)%nat).
Proof.
  cbn zeta. split; [vm_compute; reflexivity|].
  apply (serve_pooled_open_tx golibs). vm_compute. reflexivity.
Defined.

Lemma get_response_of_table (L : Libs) (f : faults) (q : query) (db db' : DB) :
  markets db = markets db' -> fst (get f q db) = fst (get f q db').
Proof.
  intros H. rewrite !get_cases. unfold Query. rewrite H.
  destruct (begin_fails f); [reflexivity|]. cbn zeta.
  destruct (if query_fails f then None else select q (markets db')) as [rows|];
    [|reflexivity].
  destruct (concatRowsToJSON rows); try reflexivity.
  destruct (commit_fails f); reflexivity.
Qed.

(** X22.  Earlier requests reach a later one through the pool alone.  After a
    run of requests that were all given a connection, a request waits for a
    connection when the transactions left open fill the pool, and is
    otherwise answered as it would have been without the earlier
    requests. *)
Theorem earlier_requests_reach_through_pool
    (L : Libs) (reqs : list (faults * query)) (f : faults) (q : query)
    (db db' : DB) :
  serve_pooled reqs db = Some db' ->
  option_map fst (get_pooled f q db')
  = if Nat.leb MaxOpenConns
         (open_tx db + List.length (filter (returns_early (markets db)) reqs))
    then None
    else Some (fst (get f q db)).
Proof.
  intros H. destruct (serve_pooled_state L reqs db db' H) as [Hm Ho].
  rewrite get_pooled_cases. unfold pool_exhausted. rewrite Ho.
  destruct (Nat.leb _ _); [reflexivity|].
  cbn [option_map]. f_equal. apply get_response_of_table. assumption.
Qed.

Lemma earlier_requests_reach_through_pool_witness :
  let refused := ({| begin_fails := false; exec_fails := false;
                     query_fails := true; commit_fails := false |},
                  ByRegion "10000002") in
  let db := snd (handleMessage healthy price_then empty_db) in
  let db' := {| markets := markets db; open_tx := 2 |} in
  serve_pooled [refused; refused] db = Some db' /\
  option_map fst (get_pooled healthy (ByType "34") db')
  = if Nat.leb MaxOpenConns
         (open_tx db
          + List.length (filter (returns_early (markets db)) [refused; refused]))
    then None
    else Some (fst (get healthy (ByType "34") db)).
Proof.
  cbn zeta. split; [vm_compute; reflexivity|].
  apply (earlier_requests_reach_through_pool golibs). vm_compute. reflexivity.
Defined.

(** X24.  The pool runs dry.  When requests that all return before
    [tx.Commit] bring the count of open transactions to the size of the pool,
    each of them is still given a connection, and after them every request
    and every message whose key fields are read waits for a connection: no
    later request is answered and no later message is stored. *)
Theorem early_returns_exhaust_pool
    (L : Libs) (reqs : list (faults * query)) (db : DB) :
  forallb (returns_early (markets db)) reqs = true ->
  (open_tx db + List.length reqs)%nat = MaxOpenConns ->
  exists db',
    serve_pooled reqs db = Some db' /\
    markets db' = markets db /\
    open_tx db' = MaxOpenConns /\
    (forall f q more,
       get_pooled f q db' = None /\
       serve_pooled (reqs ++ (f, q) :: more) db = None) /\
    (forall f body r t,
       jsonparser_GetInt body "regionID" = Some r ->
       jsonparser_GetInt body "typeID" = Some t ->
       handleMessage_pooled f body db' = None).
Proof.
  intros Hall Hlen.
  assert (Hrun : exists db', serve_pooled reqs db = Some db').
  { revert db Hall Hlen. induction reqs as [|[f q] reqs IH]; intros db Hall Hlen.
    - eexists. reflexivity.
    - cbn [forallb] in Hall. apply andb_true_iff in Hall. destruct Hall as [Hq Hall].
      cbn [List.length] in Hlen. cbn [serve_pooled]. rewrite get_pooled_cases.
      assert (Hp : pool_exhausted db = false) by (apply pool_exhausted_false; lia).
      rewrite Hp. destruct (get f q db) as [r db1] eqn:G.
      assert (Hm1 : markets db1 = markets db)
        by (change db1 with (snd (r, db1)); rewrite <- G; apply get_markets).
      assert (Ho1 : open_tx db1 = S (open_tx db)).
      { change db1 with (snd (r, db1)). rewrite <- G, get_returns_early, Hq.
        reflexivity. }
      apply IH; [rewrite Hm1; assumption | lia]. }
  destruct Hrun as [db' Hrun]. exists db'.
  destruct (serve_pooled_state L reqs db db' Hrun) as [Hm Ho].
  assert (Hcount : List.length (filter (returns_early (markets db)) reqs)
                   = List.length reqs).
  { clear -Hall. induction reqs as [|x reqs IH]; [reflexivity|].
    cbn [forallb] in Hall. apply andb_true_iff in Hall. destruct Hall as [Hx Hall].
    cbn [filter]. rewrite Hx. cbn [List.length]. rewrite IH by assumption.
    reflexivity. }
  assert (Hfull : open_tx db' = MaxOpenConns) by lia.
  assert (Hp : pool_exhausted db' = true)
    by (unfold pool_exhausted; rewrite Hfull; apply Nat.leb_refl).
  repeat split; try assumption.
  - rewrite get_pooled_cases, Hp. reflexivity.
  - rewrite serve_pooled_app, Hrun. cbn [serve_pooled].
    rewrite get_pooled_cases, Hp. reflexivity.
  - intros f body r t Hr Ht. unfold handleMessage_pooled, Begin_pooled.
    rewrite Hr, Ht, Hp. reflexivity.
Qed.

Lemma early_returns_exhaust_pool_witness :
  let refused := ({| begin_fails := false; exec_fails := false;
                     query_fails := true; commit_fails := false |},
                  ByRegion "10000002") in
  let db := snd (handleMessage healthy price_then empty_db) in
  exists db',
    serve_pooled (repeat refused 20) db = Some db' /\
    markets db' = markets db /\
    open_tx db' = MaxOpenConns /\
    (forall f q more,
       get_pooled f q db' = None /\
       serve_pooled (repeat refused 20 ++ (f, q) :: more) db = None) /\
    (forall f body r t,
       jsonparser_GetInt body "regionID" = Some r ->
       jsonparser_GetInt body "typeID" = Some t ->
       handleMessage_pooled f body db' = None).
Proof.
  cbn zeta. apply (early_returns_exhaust_pool golibs); vm_compute; reflexivity.
Defined.
(* ================================================================== *)
(** * Ingestion followed by reads *)

Lemma chunks_of_fail (L : Libs) (rows : Rows) :
  Exists (fun r => exists e, spliced r = Fail e) rows ->
  forall cs, chunks_of rows <> Ret cs.
Proof.
  induction 1 as [r rows [e Hr] | r rows _ IH]; intros cs; cbn [chunks_of].
  - rewrite Hr. discriminate.
  - destruct (spliced r); try discriminate.
    destruct (chunks_of rows) as [cs'| |] eqn:E; try discriminate.
    exfalso. apply (IH cs'). reflexivity.
Qed.

(** X20.  Ingestion does not look at [orders]: a message without that field is
    acknowledged, and its row then makes the reads that select it fail.  The
    request for its pair is answered 404 with the transaction left open, and
    the requests for its region and for its type are not answered 200. *)
Theorem row_without_orders_blocks_reads
    (L : Libs) (f f' : faults) (body : bytes) (region type : string)
    (r t : Z) (db db1 : DB) :
  snappy_Decode (snappy_Encode body) = Some body ->
  jsonparser_GetInt body "regionID" = Some r ->
  jsonparser_GetInt body "typeID" = Some t ->
  jsonparser_Get body "orders" = None ->
  pq_int8 region = Some r ->
  pq_int8 type = Some t ->
  primary_key (markets db) ->
  handleMessage f body db = (None, db1) ->
  begin_fails f' = false -> query_fails f' = false ->
  getRegionType f' region type db1
    = (AbortWithError 404 JSONError,
       {| markets := markets db1; open_tx := S (open_tx db1) |}) /\
  status_of (fst (getRegion f' region db1)) <> Some 200 /\
  status_of (fst (getType f' type db1)) <> Some 200.
Proof.
  intros Hcodec Hr Ht Ho Hpr Hpt Hpk H Hb Hq.
  apply handleMessage_acknowledged in H. destruct H as (r' & t' & Hr' & Ht' & ->).
  rewrite Hr in Hr'. rewrite Ht in Ht'. injection Hr' as <-. injection Ht' as <-.
  set (new := {| regionID := r; typeID := t; market := snappy_Encode body |}).
  assert (Hbad : spliced (Some (market new)) = Fail JSONError).
  { unfold spliced, orders_of. cbn [market new]. rewrite Hcodec, Ho. reflexivity. }
  assert (Hin : In new (upsert r t (snappy_Encode body) (markets db))).
  { assert (Hf := filter_upsert r t (snappy_Encode body) (markets db) Hpk).
    assert (Hin : In new (filter (same_key r t)
                            (upsert r t (snappy_Encode body) (markets db))))
      by (rewrite Hf; left; reflexivity).
    apply filter_In in Hin. apply Hin. }
  assert (Hnot200 : forall p : row -> bool,
            p new = true ->
            forall q, select q (upsert r t (snappy_Encode body) (markets db))
                      = Some (map (fun x => Some (market x))
                                (filter p (upsert r t (snappy_Encode body) (markets db)))) ->
            status_of (fst (get f' q
                         {| markets := upsert r t (snappy_Encode body) (markets db);
                            open_tx := open_tx db |})) <> Some 200).
  { intros p Hp q Hs. rewrite get_cases. unfold Query.
    rewrite Hb, Hq. cbn [markets open_tx]. rewrite Hs.
    rewrite concatRowsToJSON_chunks.
    destruct (chunks_of _) as [cs| |] eqn:E; [|cbn; discriminate|cbn; discriminate].
    exfalso. revert E. apply chunks_of_fail.
    apply Exists_exists. exists (Some (market new)). split; [|eauto].
    apply in_map_iff. exists new. split; [reflexivity|].
    apply filter_In. split; assumption. }
  split; [|split].
  - unfold getRegionType. rewrite get_cases. unfold Query.
    rewrite Hb, Hq. cbn [select markets open_tx]. rewrite Hpr, Hpt.
    rewrite filter_upsert by assumption. cbn [map].
    rewrite concatRowsToJSON_chunks. cbn [chunks_of]. fold new. rewrite Hbad.
    reflexivity.
  - unfold getRegion. apply Hnot200 with (p := fun x => regionID x =? r).
    + cbn. apply Z.eqb_refl.
    + cbn [select]. rewrite Hpr. reflexivity.
  - unfold getType. apply Hnot200 with (p := fun x => typeID x =? t).
    + cbn. apply Z.eqb_refl.
    + cbn [select]. rewrite Hpt. reflexivity.
Qed.

Lemma row_without_orders_blocks_reads_witness :
  let db1 := snd (handleMessage healthy (J "{'regionID':10000002,'typeID':35}")
                    (snd (handleMessage healthy price_then empty_db))) in
  getRegionType healthy "10000002" "35" db1
    = (AbortWithError 404 JSONError,
       {| markets := markets db1; open_tx := S (open_tx db1) |}) /\
  status_of (fst (getRegion healthy "10000002" db1)) <> Some 200 /\
  status_of (fst (getType healthy "35" db1)) <> Some 200.
Proof.
  apply (row_without_orders_blocks_reads golibs healthy healthy
           (J "{'regionID':10000002,'typeID':35}") "10000002" "35" 10000002 35
           (snd (handleMessage healthy price_then empty_db))).
  - apply snappy_facts.Decode_Encode.
  - vm_compute. reflexivity.
  - vm_compute. reflexivity.
  - vm_compute. reflexivity.
  - vm_compute. reflexivity.
  - vm_compute. reflexivity.
  - apply (handleMessage_primary_key golibs). constructor.
  - vm_compute. reflexivity.
  - reflexivity.
  - reflexivity.
Defined.

Lemma upsert_length (r t : Z) (m : bytes) (tb : table) :
  List.length (upsert r t m tb)
  = if existsb (same_key r t) tb then List.length tb else S (List.length tb).
Proof.
  induction tb as [|x tb IH]; [reflexivity|].
  cbn [upsert existsb]. destruct (same_key r t x); [reflexivity|].
  cbn [orb List.length]. rewrite IH. destruct (existsb (same_key r t) tb); reflexivity.
Qed.

(** X8.  An acknowledged message adds a row exactly when the table had none for
    its key; otherwise the number of rows is what it was. *)
Theorem handleMessage_row_count
    (L : Libs) (f : faults) (body : bytes) (r t : Z) (db db' : DB) :
  jsonparser_GetInt body "regionID" = Some r ->
  jsonparser_GetInt body "typeID" = Some t ->
  handleMessage f body db = (None, db') ->
  List.length (markets db')
  = if existsb (same_key r t) (markets db)
    then List.length (markets db) else S (List.length (markets db)).
Proof.
  intros Hr Ht H.
  apply handleMessage_acknowledged in H. destruct H as (r' & t' & Hr' & Ht' & ->).
  rewrite Hr in Hr'. rewrite Ht in Ht'. injection Hr' as <-. injection Ht' as <-.
  cbn [markets]. apply upsert_length.
Qed.

Lemma handleMessage_row_count_witness :
  List.length (markets (snd (handleMessage healthy price_now
                               (snd (handleMessage healthy price_then empty_db)))))
  = if existsb (same_key 10000002 34)
         (markets (snd (handleMessage healthy price_then empty_db)))
    then List.length (markets (snd (handleMessage healthy price_then empty_db)))
    else S (List.length (markets (snd (handleMessage healthy price_then empty_db)))).
Proof.
  apply (handleMessage_row_count golibs healthy price_now 10000002 34
           (snd (handleMessage healthy price_then empty_db)));
    vm_compute; reflexivity.
Defined.

Lemma get_answer_of (L : Libs) (f : faults) (q : query) (db : DB) (rows : Rows) :
  begin_fails f = false -> Query f q db = Some rows ->
  fst (get f q db) = answer_of f rows.
Proof.
  intros Hb Hq. rewrite get_cases, Hb. cbn zeta. rewrite Hq. unfold answer_of.
  destruct (concatRowsToJSON rows); try reflexivity.
  destruct (commit_fails f); reflexivity.
Qed.

(** X21.  Two messages about one type and two regions, delivered to the empty
    table, with [orders] values that are arrays and not empty.  The statement
    of [getType] has no ORDER BY; in whichever order the database returns the
    two rows, the request for the type is answered with status 200 and the
    array of the elements of the row returned first followed by those of the
    other row. *)
Theorem ingest_two_then_getType_any_order
    (L : Libs) (f : faults) (body1 body2 : bytes) (es1 es2 : list bytes)
    (type : string) (r1 r2 t : Z) :
  snappy_Decode (snappy_Encode body1) = Some body1 ->
  snappy_Decode (snappy_Encode body2) = Some body2 ->
  jsonparser_GetInt body1 "regionID" = Some r1 ->
  jsonparser_GetInt body1 "typeID" = Some t ->
  jsonparser_GetInt body2 "regionID" = Some r2 ->
  jsonparser_GetInt body2 "typeID" = Some t ->
  r1 <> r2 ->
  jsonparser_Get body1 "orders" = Some (array_lit es1) ->
  jsonparser_Get body2 "orders" = Some (array_lit es2) ->
  es1 <> [] -> es2 <> [] ->
  pq_int8 type = Some t ->
  begin_fails f = false -> query_fails f = false -> commit_fails f = false ->
  let db2 := deliver [(healthy, body1); (healthy, body2)] empty_db in
  let row1 := Some (snappy_Encode body1) in
  let row2 := Some (snappy_Encode body2) in
  (forall rows,
     may_return (ByType type) (markets db2) rows ->
     (rows = [row1; row2] /\
      answer_of f rows
      = Data 200 "application/json; charset=utf-8" (array_lit (es1 ++ es2))) \/
     (rows = [row2; row1] /\
      answer_of f rows
      = Data 200 "application/json; charset=utf-8" (array_lit (es2 ++ es1)))) /\
  may_return (ByType type) (markets db2) [row1; row2] /\
  may_return (ByType type) (markets db2) [row2; row1] /\
  (exists rows,
     may_return (ByType type) (markets db2) rows /\
     fst (getType f type db2) = answer_of f rows) /\
  snd (getType f type db2) = db2.
Proof.
  intros Hc1 Hc2 Hr1 Ht1 Hr2 Ht2 Hne Ho1 Ho2 He1 He2 Hpt Hb Hq Hc.
  assert (Hdb : deliver [(healthy, body1); (healthy, body2)] empty_db
                = {| markets := [ {| regionID := r1; typeID := t;
                                     market := snappy_Encode body1 |};
                                  {| regionID := r2; typeID := t;
                                     market := snappy_Encode body2 |} ];
                     open_tx := 0 |}).
  { cbn [deliver]. unfold handleMessage at 2. rewrite Hr1, Ht1. cbn.
    unfold handleMessage. rewrite Hr2, Ht2. cbn.
    unfold same_key. cbn [regionID typeID].
    replace (r1 =? r2) with false by (symmetry; apply Z.eqb_neq; assumption).
    reflexivity. }
  cbn zeta. rewrite Hdb. cbn [markets].
  set (row1 := Some (snappy_Encode body1)).
  set (row2 := Some (snappy_Encode body2)).
  assert (Hsel : select (ByType type)
                   [ {| regionID := r1; typeID := t; market := snappy_Encode body1 |};
                     {| regionID := r2; typeID := t; market := snappy_Encode body2 |} ]
                 = Some [row1; row2]).
  { cbn [select]. rewrite Hpt. cbn [filter typeID]. rewrite Z.eqb_refl. reflexivity. }
  assert (Hs1 : spliced row1 = Ret (join (B ",") es1))
    by (apply spliced_bracketed; unfold orders_of, row1; rewrite Hc1, Ho1; reflexivity).
  assert (Hs2 : spliced row2 = Ret (join (B ",") es2))
    by (apply spliced_bracketed; unfold orders_of, row2; rewrite Hc2, Ho2; reflexivity).
  assert (H12 : answer_of f [row1; row2]
                = Data 200 "application/json; charset=utf-8" (array_lit (es1 ++ es2))).
  { unfold answer_of. rewrite concatRowsToJSON_chunks. cbn [chunks_of].
    rewrite Hs1, Hs2, Hc. unfold array_lit. rewrite join_app by assumption.
    reflexivity. }
  assert (H21 : answer_of f [row2; row1]
                = Data 200 "application/json; charset=utf-8" (array_lit (es2 ++ es1))).
  { unfold answer_of. rewrite concatRowsToJSON_chunks. cbn [chunks_of].
    rewrite Hs1, Hs2, Hc. unfold array_lit. rewrite join_app by assumption.
    reflexivity. }
  assert (Hq12 : Query f (ByType type)
                   {| markets := [ {| regionID := r1; typeID := t;
                                      market := snappy_Encode body1 |};
                                   {| regionID := r2; typeID := t;
                                      market := snappy_Encode body2 |} ];
                      open_tx := 0 |} = Some [row1; row2]).
  { unfold Query. rewrite Hq. cbn [markets]. exact Hsel. }
  split; [|split; [|split; [|split]]].
  - intros rows (selected & Hs & Hperm). rewrite Hsel in Hs. injection Hs as <-.
    apply Permutation_length_2_inv in Hperm. destruct Hperm as [-> | ->].
    + left. split; [reflexivity | assumption].
    + right. split; [reflexivity | assumption].
  - exists [row1; row2]. split; [assumption | apply Permutation_refl].
  - exists [row1; row2]. split; [assumption | apply perm_swap].
  - exists [row1; row2]. split.
    + exists [row1; row2]. split; [assumption | apply Permutation_refl].
    + unfold getType. apply get_answer_of; assumption.
  - unfold getType. rewrite get_cases, Hb. cbn zeta. rewrite Hq12.
    unfold answer_of in H12.
    destruct (concatRowsToJSON [row1; row2]); try discriminate.
    rewrite Hc. reflexivity.
Qed.

Lemma ingest_two_then_getType_any_order_witness :
  let body1 := J "{'regionID':1,'typeID':34,'orders':[{'price':1},{'price':2}]}" in
  let body2 := J "{'regionID':2,'typeID':34,'orders':[{'price':3}]}" in
  let db2 := deliver [(healthy, body1); (healthy, body2)] empty_db in
  let row1 := Some (snappy.Encode body1) in
  let row2 := Some (snappy.Encode body2) in
  (forall rows,
     may_return (ByType "34") (markets db2) rows ->
     (rows = [row1; row2] /\
      answer_of healthy rows
      = Data 200 "application/json; charset=utf-8"
          (array_lit ([J "{'price':1}"; J "{'price':2}"] ++ [J "{'price':3}"]))) \/
     (rows = [row2; row1] /\
      answer_of healthy rows
      = Data 200 "application/json; charset=utf-8"
          (array_lit ([J "{'price':3}"] ++ [J "{'price':1}"; J "{'price':2}"])))) /\
  may_return (ByType "34") (markets db2) [row1; row2] /\
  may_return (ByType "34") (markets db2) [row2; row1] /\
  (exists rows,
     may_return (ByType "34") (markets db2) rows /\
     fst (getType healthy "34" db2) = answer_of healthy rows) /\
  snd (getType healthy "34" db2) = db2.
Proof.
  cbn zeta.
  apply (ingest_two_then_getType_any_order golibs healthy
           (J "{'regionID':1,'typeID':34,'orders':[{'price':1},{'price':2}]}")
           (J "{'regionID':2,'typeID':34,'orders':[{'price':3}]}")
           [J "{'price':1}"; J "{'price':2}"] [J "{'price':3}"] "34" 1 2 34).
  - apply snappy_facts.Decode_Encode.
  - apply snappy_facts.Decode_Encode.
  - vm_compute. reflexivity.
  - vm_compute. reflexivity.
  - vm_compute. reflexivity.
  - vm_compute. reflexivity.
  - discriminate.
  - vm_compute. reflexivity.
  - vm_compute. reflexivity.
  - discriminate.
  - discriminate.
  - vm_compute. reflexivity.
  - reflexivity.
  - reflexivity.
  - reflexivity.
Defined.
